(** * matchable.ts: the classifier [me] and its five matchers

    A shallow embedding of [src/matchable.ts] over a small model of the
    JavaScript it runs on: values, a heap of objects that references point
    into, and a state-and-exception monad in which the matchers' methods
    run the handlers they are given.

    What the model covers, and what it leaves out:
    - a number is given by the string JavaScript prints for it: [1] is
      [Number "1"], a half is [Number "0.5"], 10^21 is [Number "1e+21"],
      NaN is [Number "NaN"].  Two numbers print alike only when they are
      the two zeros, which nothing in matchable.ts tells apart (both print
      as "0", both are falsy, [includes] and [===] take them as equal), so
      they are one number here.  The code computes nothing with a number;
      it turns it into a key, tests it for truth and compares it;
    - an object has a class (plain record, array, or function), its own
      enumerable properties, and the properties it inherits, flattened
      ([proto]); nothing in matchable.ts writes to the properties of a
      prototype.  The one accessor in the model is [__proto__], which an
      object literal inherits: an entry under that name in [proto] stands
      for it and holds what its getter returns, the prototype; assigning
      through it sets the prototype and makes no field (see [set_prop]).
      Symbol keys, property attributes and other accessors are left out;
    - the own properties are a finite map: the order in which JavaScript
      enumerates them is not in the model, and a handler of the model
      cannot tell two records with the same fields apart;
    - a reference used as a key is converted as JavaScript does, by the
      [toString] and [valueOf] it has ([ToString]); these are functions of
      the caller like the handlers, run with the object as their argument;
    - [Object_keys] lists the own keys in the order of the finite map;
      every use in matchable.ts that looks at the first key has made sure
      it is the only one;
    - a function value is a heap object of class [Function f]; what calling
      it does is given by [body f], a parameter of the development. *)

From Stdlib Require Import Arith String Ascii List Lia.
From stdpp Require Import base option list gmap strings pretty.

Open Scope string_scope.
Open Scope list_scope.
Open Scope nat_scope.

(** ** Values and objects *)

Definition loc := nat.
Definition fid := nat.

(** A number, as the string JavaScript prints for it. *)
Record number : Type := Number { Number_toString : string }.

#[global] Instance number_eq_dec : EqDecision number.
Proof. solve_decision. Defined.

(** [!!n]: zero and NaN are the falsy numbers. *)
Definition Number_toBoolean (n : number) : bool :=
  negb (String.eqb (Number_toString n) "0"
        || String.eqb (Number_toString n) "NaN").

Inductive val : Type :=
| VUndefined
| VNull
| VBool (b : bool)
| VNum (n : number)
| VStr (s : string)
| VObj (l : loc).

#[global] Instance val_eq_dec : EqDecision val.
Proof. solve_decision. Defined.

Inductive obj_class : Type :=
| Plain
| ArrayOf (len : nat)
| Function (f : fid).

#[global] Instance obj_class_eq_dec : EqDecision obj_class.
Proof. solve_decision. Defined.

Record object : Type := Object {
  class : obj_class;
  own : gmap string val;
  proto : gmap string val
}.

Inductive exn : Type :=
| Error (message : string)
| TypeError (message : string)
| RangeError (message : string).

(** ** The monad: a heap, a log of the calls made, and exceptions *)

Record state : Type := State {
  heap : list object;
  calls : list (fid * val)
}.

Inductive outcome (A : Type) : Type :=
| Ret (a : A)
| Throw (e : exn)
| Stuck.
Arguments Ret {A} a.
Arguments Throw {A} e.
Arguments Stuck {A}.

Definition M (A : Type) : Type := state -> outcome A * state.

Definition ret {A} (a : A) : M A := fun s => (Ret a, s).
Definition throw {A} (e : exn) : M A := fun s => (Throw e, s).
Definition stuck {A} : M A := fun s => (Stuck, s).

Definition bind {A B} (m : M A) (k : A -> M B) : M B :=
  fun s =>
    match m s with
    | (Ret a, s') => k a s'
    | (Throw e, s') => (Throw e, s')
    | (Stuck, s') => (Stuck, s')
    end.

Notation "x <- m ;; k" := (bind m (fun x => k))
  (at level 100, m at next level, right associativity).
Notation "m ;;; k" := (bind m (fun _ => k))
  (at level 100, right associativity).

(** ** The JavaScript operations matchable.ts uses *)

(** [v == null] *)
Definition is_nullish (v : val) : bool :=
  match v with
  | VUndefined | VNull => true
  | _ => false
  end.

(** [!!v] *)
Definition truthy (v : val) : bool :=
  match v with
  | VUndefined | VNull => false
  | VBool b => b
  | VNum n => Number_toBoolean n
  | VStr s => negb (String.eqb s EmptyString)
  | VObj _ => true
  end.

(** [a === b]: the same value, two references to the same object; NaN is
    not equal to itself. *)
Definition strict_equal (a b : val) : bool :=
  match a with
  | VNum n =>
      if String.eqb (Number_toString n) "NaN" then false
      else bool_decide (a = b)
  | _ => bool_decide (a = b)
  end.

(** [typeof v]; it reads the heap to tell a function from other objects. *)
Definition typeof (v : val) : M string :=
  fun s =>
    (Ret match v with
         | VUndefined => "undefined"
         | VNull => "object"
         | VBool _ => "boolean"
         | VNum _ => "number"
         | VStr _ => "string"
         | VObj l =>
             match heap s !! l with
             | Some (Object (Function _) _ _) => "function"
             | _ => "object"
             end
         end, s).

(** A value that is not a reference, so not a function either. *)
Definition is_primitive (v : val) : bool :=
  match v with
  | VObj _ => false
  | _ => true
  end.

(** The string of a primitive.  A reference has no string of its own: it
    is first turned into a primitive by its conversion methods, see
    [ToString] below. *)
Definition String_ (v : val) : option string :=
  match v with
  | VUndefined => Some "undefined"
  | VNull => Some "null"
  | VBool true => Some "true"
  | VBool false => Some "false"
  | VNum n => Some (Number_toString n)
  | VStr s => Some s
  | VObj _ => None
  end.

(** The property key of a primitive used as an index: its string.  It is
    used where the source indexes with what [Object.keys] gave it, a string
    or, for a record with no field, undefined. *)
Definition ToPropertyKey_primitive (v : val) : M string :=
  match String_ v with
  | Some k => ret k
  | None => stuck
  end.

Definition deref (l : loc) : M object :=
  fun s =>
    match heap s !! l with
    | Some o => (Ret o, s)
    | None => (Stuck, s)
    end.

Definition alloc (o : object) : M loc :=
  fun s => (Ret (length (heap s)),
            {| heap := heap s ++ [o]; calls := calls s |}).

(** [o[k]] where [o] is the object itself: own properties first, then the
    inherited ones, [undefined] when there is none. *)
Definition lookup_prop (o : object) (k : string) : val :=
  match own o !! k with
  | Some v => v
  | None =>
      match class o with
      | ArrayOf n =>
          if String.eqb k "length" then VNum (Number (pretty n))
          else default VUndefined (proto o !! k)
      | _ => default VUndefined (proto o !! k)
      end
  end.

(** [k in o] *)
Definition has_property (o : object) (k : string) : bool :=
  match own o !! k with
  | Some _ => true
  | None =>
      match class o with
      | ArrayOf _ => String.eqb k "length" || bool_decide (is_Some (proto o !! k))
      | _ => bool_decide (is_Some (proto o !! k))
      end
  end.

(** [o[k]] through a reference *)
Definition get (l : loc) (k : string) : M val :=
  o <- deref l ;; ret (lookup_prop o k).

(** [k in o] through a reference *)
Definition has (l : loc) (k : string) : M bool :=
  o <- deref l ;; ret (has_property o k).

(** [Object.keys(o)] *)
Definition Object_keys (l : loc) : M (list string) :=
  o <- deref l ;; ret ((map_to_list (own o)).*1).

(** [arr.includes(v)]: SameValueZero, which on the values of the model is
    equality (on references: the same object). *)
Definition includes {A} `{EqDecision A} (arr : list A) (v : A) : bool :=
  bool_decide (v ∈ arr).

(** [/^[A-Z]/.test(s)] *)
Definition test_upper_first (s : string) : bool :=
  match s with
  | EmptyString => false
  | String c _ => (65 <=? nat_of_ascii c) && (nat_of_ascii c <=? 90)
  end.

(** [delete o[k]] on a record or a function object.  An array has indices
    and a length that [delete] treats specially; matchable.ts only deletes
    from a record it has just built. *)
Definition delete_prop (l : loc) (k : string) : M unit :=
  fun s =>
    match heap s !! l with
    | Some (Object (ArrayOf _) _ _) | None => (Stuck, s)
    | Some o =>
        (Ret tt,
         {| heap := <[l := Object (class o) (delete k (own o)) (proto o)]> (heap s);
            calls := calls s |})
    end.

(** The properties a lookup finds in [o], in the order [lookup_prop]
    looks for them. *)
Definition visible (o : object) : gmap string val :=
  own o ∪
  match class o with
  | ArrayOf n => {[ "length" := VNum (Number (pretty n)) ]} ∪ proto o
  | _ => proto o
  end.

(** What an object inherits once its prototype is the object [o'] at [l']:
    what a lookup finds in [o'], and, when the [__proto__] accessor is
    among it, the new prototype as what the getter returns. *)
Definition inherited_from (l' : loc) (o' : object) : gmap string val :=
  if bool_decide (own o' !! "__proto__" = None)
     && bool_decide (is_Some (proto o' !! "__proto__"))
  then <[ "__proto__" := VObj l' ]> (visible o')
  else visible o'.

(** [o[k] = v] on a record or a function object: an own property is
    overwritten, a new one is created.  The exception is [__proto__] on an
    object that has no field of that name and inherits the accessor: the
    setter runs, no field is made; an object or null becomes the prototype,
    any other value is dropped.  (A prototype that would close a cycle is
    refused by JavaScript; of those the model sees the object itself.) *)
Definition set_prop (l : loc) (k : string) (v : val) : M unit :=
  fun s =>
    match heap s !! l with
    | Some (Object (ArrayOf _) _ _) | None => (Stuck, s)
    | Some o =>
        if String.eqb k "__proto__"
           && bool_decide (own o !! k = None)
           && bool_decide (is_Some (proto o !! k))
        then
          match v with
          | VObj l' =>
              if l' =? l then (Throw (TypeError "Cyclic __proto__ value"), s)
              else
                match heap s !! l' with
                | Some o' =>
                    (Ret tt,
                     {| heap := <[l := Object (class o) (own o)
                                         (inherited_from l' o')]> (heap s);
                        calls := calls s |})
                | None => (Stuck, s)
                end
          | VNull =>
              (Ret tt,
               {| heap := <[l := Object (class o) (own o) ∅]> (heap s);
                  calls := calls s |})
          | _ => (Ret tt, s)
          end
        else
          (Ret tt,
           {| heap := <[l := Object (class o) (<[k := v]> (own o)) (proto o)]> (heap s);
              calls := calls s |})
    end.

(** ** fast-deep-equal *)

(** Compares the pairs in order and stops at the first that differ. *)
Fixpoint all_equal (eq : val -> val -> option bool)
    (ps : list (val * val)) : option bool :=
  match ps with
  | [] => Some true
  | (x, y) :: ps' =>
      match eq x y with
      | Some true => all_equal eq ps'
      | r => r
      end
  end.

(** Modelled from the spec: [isEqual] is the deep-equality comparison the
    spec names as an external collaborator (the fast-deep-equal package,
    whose source is not in the repository).  Two values are equal when they
    are the same value, or both arrays of one length with equal elements,
    or both records with the same own keys and equal values under them.
    The recursion follows references through the heap, so it takes fuel;
    [None] is fuel running out. *)
Fixpoint equal (fuel : nat) (sigma : list object) (a b : val)
    : option bool :=
  if decide (a = b) then Some true
  else
    match a, b with
    | VObj la, VObj lb =>
        match sigma !! la, sigma !! lb with
        | Some oa, Some ob =>
            match class oa, class ob with
            | ArrayOf na, ArrayOf nb =>
                if negb (na =? nb) then Some false
                else
                  match fuel with
                  | 0 => None
                  | S fuel' =>
                      all_equal (equal fuel' sigma)
                        (map (fun i : nat =>
                                (lookup_prop oa (pretty i),
                                 lookup_prop ob (pretty i)))
                             (rev (seq 0 na)))
                  end
            | Plain, Plain =>
                let keys := (map_to_list (own oa)).*1 in
                if negb (length keys =? size (own ob)) then Some false
                else if negb (forallb (fun k => bool_decide (is_Some (own ob !! k))) keys)
                then Some false
                else
                  match fuel with
                  | 0 => None
                  | S fuel' =>
                      all_equal (equal fuel' sigma)
                        (map (fun k => (lookup_prop oa k, lookup_prop ob k))
                             (rev keys))
                  end
            | _, _ => Some false
            end
        | _, _ => Some false
        end
    | _, _ => Some false
    end.

(** A structure no deeper than the heap is large is compared in full; on a
    deeper (cyclic) one the package overflows the stack. *)
Definition isEqual (a b : val) : M bool :=
  fun s =>
    match equal (S (length (heap s))) (heap s) a b with
    | Some r => (Ret r, s)
    | None => (Throw (RangeError "Maximum call stack size exceeded"), s)
    end.

(** ** comb.js *)

(** Modelled from the spec: comb.js is not among the sources.  The spec
    describes its three combinators as "generic functional combinators that
    return a fixed value or pass through their argument unchanged (identity,
    constant-producer, zero-argument invocation)": [I] passes its argument
    through, [K x] is the function that returns [x] whatever it is given. *)
Definition I {A} (x : A) : A := x.

Definition K {A B} (x : A) : B -> A := fun _ => x.

(** ** The matchers *)

(** What [me] returns: the object of closures of the source, as the
    variables its closures capture.  The methods below take them as their
    first arguments. *)
Inductive Matchable : Type :=
| MEmpty
| MEnum (value : val)
| MUnion (tag : val) (payload : val)
| MDisc (key : string) (value : loc) (tag : val)
| MObj (value : loc).

Definition __recognizer__ (m : Matchable) : string :=
  match m with
  | MEmpty => "empty"
  | MEnum _ => "enum"
  | MUnion _ _ => "union"
  | MDisc _ _ _ => "disc"
  | MObj _ => "object"
  end.

Section Matchable.

(** What calling the function [f] on an argument does to the heap and what
    it returns: the handlers are the caller's code. *)
Variable body : fid -> val -> list object -> outcome val * list object.

(** The properties an object literal and an array literal inherit. *)
Variable Object_prototype : gmap string val.
Variable Array_prototype : gmap string val.

(** [fn(arg)].  The call is logged, so that a handler that was run can be
    told from one that was not. *)
Definition invoke (f : fid) (arg : val) : M val :=
  fun s =>
    let '(r, sigma) := body f arg (heap s) in
    (r, {| heap := sigma; calls := calls s ++ [(f, arg)] |}).

Definition call (fn arg : val) : M val :=
  match fn with
  | VObj l =>
      o <- deref l ;;
      match class o with
      | Function f => invoke f arg
      | _ => throw (TypeError "fn is not a function")
      end
  | _ => throw (TypeError "fn is not a function")
  end.

(** Running a function of the caller that is not a handler: a conversion
    method.  It can do to the heap what any function can; it is not
    entered in the log, which is the log of the handlers called. *)
Definition run (f : fid) (arg : val) : M val :=
  fun s =>
    let '(r, sigma) := body f arg (heap s) in
    (r, {| heap := sigma; calls := calls s |}).

(** [O[name]()] when what [O] has under [name] is a function: what it
    returns.  The function is given its receiver [O]. *)
Definition call_method (l : loc) (name : string) : M (option val) :=
  m <- get l name ;;
  match m with
  | VObj lm =>
      om <- deref lm ;;
      match class om with
      | Function f => r <- run f (VObj l) ;; ret (Some r)
      | _ => ret None
      end
  | _ => ret None
  end.

Definition primitive_result (r : option val) : option val :=
  match r with
  | Some p => if is_primitive p then Some p else None
  | None => None
  end.

(** The conversion of an object to a primitive, with a string wanted:
    [toString] is tried, then [valueOf]; the first that is a function and
    returns a primitive gives the result. *)
Definition OrdinaryToPrimitive (l : loc) : M val :=
  r1 <- call_method l "toString" ;;
  match primitive_result r1 with
  | Some p => ret p
  | None =>
      r2 <- call_method l "valueOf" ;;
      match primitive_result r2 with
      | Some p => ret p
      | None => throw (TypeError "Cannot convert object to primitive value")
      end
  end.

(** [String(v)]: the string of a primitive; a reference is first
    converted, which runs the caller's code. *)
Definition ToString (v : val) : M string :=
  match v with
  | VObj l =>
      p <- OrdinaryToPrimitive l ;;
      match String_ p with
      | Some k => ret k
      | None => stuck
      end
  | _ =>
      match String_ v with
      | Some k => ret k
      | None => stuck
      end
  end.

(** The property key a value used as an index stands for. *)
Definition ToPropertyKey (v : val) : M string := ToString v.

(** Modelled from the spec: the "zero-argument invocation" combinator of
    comb.js; the function sees [undefined] for its parameter. *)
Definition call0 (f : val) : M val := call f VUndefined.

(** [{ ...obj }]: a new record with the own properties of [obj]. *)
Definition spread (obj : loc) : M loc :=
  o <- deref obj ;;
  alloc (Object Plain (own o) Object_prototype).

(** *** Enum-like (primitive) matcher *)

Definition matchableEnum (value : val) : Matchable := MEnum value.

Definition matchableEnum_match (value : val) (h : loc) : M val :=
  let k := match value with
           | VBool b => VStr (if b then "true" else "false")
           | _ => value
           end in
  pk <- ToPropertyKey k ;;
  present <- has h pk ;;
  handler <- (if present : bool then pk <- ToPropertyKey k ;; get h pk
              else get h "_") ;;
  call handler value.

Definition matchableEnum_in (value : val) (arr : list val) : bool :=
  if negb (is_nullish value) then includes arr value else false.

Definition matchableEnum_into (value fn : val) : M val :=
  if is_nullish value then ret VNull else call fn value.

Definition matchableEnum_catch (value : val) (arr_branch : list val)
    (fn : val) : M val :=
  if negb (is_nullish value) && matchableEnum_in value arr_branch
  then call fn value
  else ret VNull.

(** *** Rust-enum-like (single-key object) matcher *)

Definition matchableUnion (src : loc) : M Matchable :=
  keys <- Object_keys src ;;
  let tag := match keys !! 0 with
             | Some k => VStr k
             | None => VUndefined
             end in
  pk <- ToPropertyKey_primitive tag ;;
  payload <- get src pk ;;
  ret (MUnion tag payload).

Definition matchableUnion_match (tag payload : val) (h : loc) : M val :=
  pk <- ToPropertyKey tag ;;
  f <- get h pk ;;
  fn <- (if is_nullish f then get h "_" else ret f) ;;
  call fn payload.

Definition matchableUnion_in (tag : val) (arr : list val) : bool :=
  includes arr tag.

Definition matchableUnion_not_in (tag : val) (arr : list val) : bool :=
  negb (matchableUnion_in tag arr).

Definition matchableUnion_into (payload fn : val) : M val :=
  if negb (is_nullish payload) then
    e <- alloc (Object (ArrayOf 0) ∅ Array_prototype) ;;
    eq <- isEqual payload (VObj e) ;;
    if negb eq then call fn payload else ret VNull
  else ret VNull.

Definition matchableUnion_catch (tag payload : val) (arr_branch : list val)
    (fn : val) : M val :=
  if matchableUnion_in tag arr_branch && negb (is_nullish payload) then
    e <- alloc (Object (ArrayOf 0) ∅ Array_prototype) ;;
    eq <- isEqual payload (VObj e) ;;
    if negb eq then call fn payload else ret VNull
  else ret VNull.

(** *** Empty matcher (null/undefined) *)

Definition emptyMatchable : Matchable := MEmpty.

Definition emptyMatchable_value : val := VNull.

Definition emptyMatchable_value_or : val -> val := I.

Definition emptyMatchable_value_or_else : val -> M val := call0.

Definition emptyMatchable_match : loc -> M val := K (ret VNull).

Definition emptyMatchable_is : val -> bool := K false.

Definition emptyMatchable_not : val -> bool := K false.

Definition emptyMatchable_catch : list val -> val -> M val :=
  K (K (ret VNull)).

Definition emptyMatchable_not_in : list val -> bool := K false.

Definition emptyMatchable_into : unit -> val -> M val := K (K (ret VNull)).

Definition emptyMatchable_in : list val -> bool := K false.

(** *** Discriminated-object union matcher (explicit key required) *)

Definition _disc_key (v : val) : val :=
  match v with
  | VBool b => VStr (if b then "true" else "false")
  | _ => v
  end.

Definition _disc_payload (obj : loc) (key : string) : M val :=
  out <- spread obj ;;
  delete_prop out key ;;;
  ret (VObj out).

Definition matchableDisc (value : loc) (key : string) : M Matchable :=
  tag <- get value key ;;
  ret (MDisc key value tag).

Definition matchableDisc_match (key : string) (value : loc) (tag : val)
    (h : loc) : M val :=
  let t := tag in
  let rk := if is_nullish t then VNull else _disc_key t in
  has_ <- (if negb (is_nullish rk) then pk <- ToPropertyKey rk ;; has h pk
           else ret false) ;;
  fn <- (if has_ : bool then pk <- ToPropertyKey rk ;; get h pk
         else get h "_") ;;
  if negb (truthy fn) then
    srk <- ToString rk ;;
    throw (Error ("match(): no handler for key=" ++ key ++ " tag=" ++ srk))
  else if has_ then
    p <- _disc_payload value key ;;
    call fn p
  else call fn (VObj value).

Definition matchableDisc_is (tag v : val) : bool := strict_equal tag v.

Definition matchableDisc_not (tag v : val) : bool := negb (strict_equal tag v).

Definition matchableDisc_in (tag : val) (arr : list val) : bool :=
  if negb (is_nullish tag) then includes arr tag else false.

Definition matchableDisc_not_in (tag : val) (arr : list val) : bool :=
  negb (matchableDisc_in tag arr).

Definition matchableDisc_into (key : string) (value : loc) (tag : val)
    (fn : val) : M val :=
  if is_nullish tag then ret VNull
  else
    p <- _disc_payload value key ;;
    call fn p.

Definition matchableDisc_catch (key : string) (value : loc) (tag : val)
    (arr_branch : list val) (fn : val) : M val :=
  if is_nullish tag then ret VNull
  else if negb (includes arr_branch tag) then ret VNull
  else
    p <- _disc_payload value key ;;
    call fn p.

(** *** Plain object matcher (+ explicit discriminant match) *)

Definition matchableObj (value : loc) : Matchable := MObj value.

Definition matchableObj_into (value : loc) (fn : val) : M val :=
  call fn (VObj value).

(** [keys.some((k) => value[k] == null)] *)
Fixpoint some_nullish (value : loc) (keys : list string) : M bool :=
  match keys with
  | [] => ret false
  | k :: keys' =>
      v <- get value k ;;
      if is_nullish v then ret true else some_nullish value keys'
  end.

(** [for (const k of keys) picked[k] = value[k]] *)
Fixpoint pick_each (value picked : loc) (keys : list string) : M unit :=
  match keys with
  | [] => ret tt
  | k :: keys' =>
      v <- get value k ;;
      set_prop picked k v ;;;
      pick_each value picked keys'
  end.

Definition matchableObj_catch (value : loc) (keys : list string) (fn : val)
    : M val :=
  absent <- some_nullish value keys ;;
  if absent : bool then ret VNull
  else
    picked <- alloc (Object Plain ∅ Object_prototype) ;;
    pick_each value picked keys ;;;
    call fn (VObj picked).

Definition matchableObj_as (value : loc) (key : string) : M Matchable :=
  matchableDisc value key.

Definition matchableObj_match (value : loc) (key : string) (handlers : loc)
    : M val :=
  tag <- get value key ;;
  matchableDisc_match key value tag handlers.

(** *** Public constructor *)

Definition me (value : val) : M Matchable :=
  if is_nullish value then ret emptyMatchable
  else
    t <- typeof value ;;
    if includes ["string"; "number"; "boolean"] t
    then ret (matchableEnum value)
    else
      match value with
      | VObj l =>
          keys <- Object_keys l ;;
          let key := keys !! 0 in
          if (length keys =? 1)
             && match key with
                | Some k => test_upper_first k
                | None => false
                end
          then matchableUnion l
          else ret (matchableObj l)
      | _ => stuck
      end.

End Matchable.

(** * What the statements are written with, and the literals of the tests *)

Definition is_scalar (v : val) : bool :=
  match v with
  | VBool _ | VNum _ | VStr _ => true
  | _ => false
  end.

(** A function that returns [r] whatever it is given, [() => r]. *)
Definition const_body (r : fid -> val)
    : fid -> val -> list object -> outcome val * list object :=
  fun f _ sigma => (Ret (r f), sigma).

Definition function_object (f : fid) : object := Object (Function f) ∅ ∅.

Definition record (fields : gmap string val) : object :=
  Object Plain fields ∅.

Definition array (elems : gmap string val) (len : nat) : object :=
  Object (ArrayOf len) elems ∅.

(** [{A: 1}], a record whose one field has the empty name, [{"1": 2}],
    [{foo: 1}], [{Foo: 1, bar: 2}] *)
Definition routing_heap : list object :=
  [ record {[ "A" := VNum (Number "1") ]};
    record {[ EmptyString := VNum (Number "1") ]};
    record {[ "1" := VNum (Number "2") ]};
    record {[ "foo" := VNum (Number "1") ]};
    record {[ "Foo" := VNum (Number "1"); "bar" := VNum (Number "2") ]} ].

(** [{_: () => "X"}] and the function in it *)
Definition default_X_heap : list object :=
  [ function_object 0; record {[ "_" := VObj 0 ]} ].

(** The state after a new object was put on the heap. *)
Definition with_object (s : state) (o : object) : state :=
  {| heap := heap s ++ [o]; calls := calls s |}.

(** The bare payload: a new record with the fields of [o] but [key]. *)
Definition bare_payload (Object_prototype : gmap string val) (o : object)
    (key : string) : object :=
  Object Plain (delete key (own o)) Object_prototype.

(** A function that returns its argument, [(p) => p]. *)
Definition echo_body : fid -> val -> list object -> outcome val * list object :=
  fun _ arg sigma => (Ret arg, sigma).

(** [{kind: "a", x: 1, y: 2}] with the handler maps [{a: f0, _: f1}],
    [{b: f0, _: f1}] and [{}] *)
Definition kinded_heap : list object :=
  [ function_object 0; function_object 1;
    record {[ "kind" := VStr "a"; "x" := VNum (Number "1"); "y" := VNum (Number "2") ]};
    record {[ "a" := VObj 0; "_" := VObj 1 ]};
    record {[ "b" := VObj 0; "_" := VObj 1 ]};
    record ∅ ].

(** [{Circle: {r: 2}}], its payload [{r: 2}], and the handler maps
    [{Circle: f0, _: f1}] and [{_: f1}] *)
Definition circle_heap : list object :=
  [ function_object 0; function_object 1;
    record {[ "r" := VNum (Number "2") ]};
    record {[ "Circle" := VObj 2 ]};
    record {[ "Circle" := VObj 0; "_" := VObj 1 ]};
    record {[ "_" := VObj 1 ]} ].

(** The handler maps [{1: ()=>"one", 2: ()=>"two", _: ()=>"other"}] and
    [{2: ()=>"two", _: ()=>"other"}] *)
Definition numbers_heap : list object :=
  [ function_object 0; function_object 1; function_object 2;
    record {[ "1" := VObj 0; "2" := VObj 1; "_" := VObj 2 ]};
    record {[ "2" := VObj 1; "_" := VObj 2 ]} ].

Definition numbers_body : fid -> val -> list object -> outcome val * list object :=
  const_body (fun f => match f with
                       | 0 => VStr "one"
                       | 1 => VStr "two"
                       | _ => VStr "other"
                       end).

(** An array with no elements. *)
Definition is_empty_array (sigma : list object) (v : val) : bool :=
  match v with
  | VObj l =>
      match sigma !! l with
      | Some o => bool_decide (class o = ArrayOf 0)
      | None => false
      end
  | _ => false
  end.

(** The array literal [[]]. *)
Definition empty_array (Array_prototype : gmap string val) : object :=
  Object (ArrayOf 0) ∅ Array_prototype.

(** The payloads of the tests: [[1, 2]] and [[]] *)
Definition items_heap : list object :=
  [ function_object 0;
    array {[ "0" := VNum (Number "1"); "1" := VNum (Number "2") ]} 2;
    array ∅ 0 ].

(** The fields the loop of [catch] has written after going through [keys],
    starting from a record with the fields [init]. *)
Definition picked_fields (o : object) (keys : list string)
    (init : gmap string val) : gmap string val :=
  foldl (fun m k => <[k := lookup_prop o k]> m) init keys.

(** [{a: 1, b: 2, c: 3}] and [{a: 1, b: undefined}] *)
Definition abc_heap : list object :=
  [ function_object 0;
    record {[ "a" := VNum (Number "1"); "b" := VNum (Number "2"); "c" := VNum (Number "3") ]};
    record {[ "a" := VNum (Number "1"); "b" := VUndefined ]} ].


(** The calls a caller can make on a discriminated matcher. *)
Inductive disc_op : Type :=
| OpMatch (h : loc)
| OpInto (fn : val)
| OpCatch (arr_branch : list val) (fn : val).

(** A computation keeps the object at [l]. *)
Definition keeps {A} (l : loc) (o : object) (m : M A) : Prop :=
  forall s, heap s !! l = Some o -> heap (snd (m s)) !! l = Some o.

(** The functions of the caller (the handlers, and the conversion methods
    of a reference used as a key) do not write to the object at [l]. *)
Definition leave (body : fid -> val -> list object -> outcome val * list object)
    (l : loc) (o : object) : Prop :=
  forall f arg sigma, sigma !! l = Some o -> snd (body f arg sigma) !! l = Some o.

(** One call on the discriminated matcher of [value] and [key]. *)
Definition run_op
    (body : fid -> val -> list object -> outcome val * list object)
    (Object_prototype : gmap string val)
    (key : string) (value : loc) (tag : val) (op : disc_op) : M val :=
  match op with
  | OpMatch h => matchableDisc_match body Object_prototype key value tag h
  | OpInto fn => matchableDisc_into body Object_prototype key value tag fn
  | OpCatch arr_branch fn =>
      matchableDisc_catch body Object_prototype key value tag arr_branch fn
  end.

(** A sequence of calls, one after the other, whatever each of them
    returns or throws; the state after the last. *)
Fixpoint run_ops
    (body : fid -> val -> list object -> outcome val * list object)
    (Object_prototype : gmap string val)
    (key : string) (value : loc) (tag : val) (ops : list disc_op)
    (s : state) : state :=
  match ops with
  | [] => s
  | op :: ops' =>
      run_ops body Object_prototype key value tag ops'
        (snd (run_op body Object_prototype key value tag op s))
  end.

(** * The rest of the matchers' methods *)

Section Methods.

Variable body : fid -> val -> list object -> outcome val * list object.
Variable Object_prototype : gmap string val.
Variable Array_prototype : gmap string val.

(** [value ?? fallback] *)
Definition matchableEnum_value_or (value fallback : val) : val :=
  if is_nullish value then fallback else value.

(** [value ?? fallback()]: the fallback is called, with no argument, only
    when the value is null or undefined. *)
Definition matchableEnum_value_or_else (value fallback : val) : M val :=
  if is_nullish value then call body fallback VUndefined else ret value.

(** The calls on a matcher that can run a handler: one constructor for
    each such method of the enum, union, discriminated and object matchers
    (the methods of the empty matcher are combinators of comb.js). *)
Inductive operation : M val -> Prop :=
| op_enum_value_or_else (value fallback : val) :
    operation (matchableEnum_value_or_else value fallback)
| op_enum_match (value : val) (h : loc) :
    operation (matchableEnum_match body value h)
| op_enum_into (value fn : val) :
    operation (matchableEnum_into body value fn)
| op_enum_catch (value : val) (arr_branch : list val) (fn : val) :
    operation (matchableEnum_catch body value arr_branch fn)
| op_union_match (tag payload : val) (h : loc) :
    operation (matchableUnion_match body tag payload h)
| op_union_into (payload fn : val) :
    operation (matchableUnion_into body Array_prototype payload fn)
| op_union_catch (tag payload : val) (arr_branch : list val) (fn : val) :
    operation (matchableUnion_catch body Array_prototype tag payload arr_branch fn)
| op_disc_match (key : string) (value : loc) (tag : val) (h : loc) :
    operation (matchableDisc_match body Object_prototype key value tag h)
| op_disc_into (key : string) (value : loc) (tag fn : val) :
    operation (matchableDisc_into body Object_prototype key value tag fn)
| op_disc_catch (key : string) (value : loc) (tag : val)
    (arr_branch : list val) (fn : val) :
    operation
      (matchableDisc_catch body Object_prototype key value tag arr_branch fn)
| op_obj_into (value : loc) (fn : val) :
    operation (matchableObj_into body value fn)
| op_obj_catch (value : loc) (keys : list string) (fn : val) :
    operation (matchableObj_catch body Object_prototype value keys fn)
| op_obj_match (value : loc) (key : string) (handlers : loc) :
    operation (matchableObj_match body Object_prototype value key handlers).

End Methods.


(** A computation leaves the state as it is: it only reads. *)
Definition reads {A} (m : M A) : Prop :=
  forall s, snd (m s) = s.

(** A computation makes no call. *)
Definition quiet {A} (m : M A) : Prop :=
  forall s, calls (snd (m s)) = calls s.

(** A computation makes one call at most. *)
Definition at_most_once {A} (m : M A) : Prop :=
  forall s, exists made,
    calls (snd (m s)) = calls s ++ made /\ length made <= 1.

(** [{a: undefined, _: f0}], a handler map with nothing under a key it has,
    the record [{kind: "a", x: 1}], and the handler map [{}] *)
Definition hollow_heap : list object :=
  [ function_object 0;
    record {[ "a" := VUndefined; "_" := VObj 0 ]};
    record {[ "kind" := VStr "a"; "x" := VNum (Number "1") ]};
    record ∅ ].

(** A record that inherits [toString] and has the field [a] *)
Definition inheriting_heap : list object :=
  [ function_object 0; function_object 1;
    Object Plain {[ "a" := VNum (Number "1") ]} {[ "toString" := VObj 1 ]} ].

(** [{_: f0}], a handler map that inherits [toString] *)
Definition inheriting_handlers_heap : list object :=
  [ function_object 0; function_object 1;
    Object Plain {[ "_" := VObj 0 ]} {[ "toString" := VObj 1 ]} ].

(** The spec's words for the names of variants: the name starts with an
    upper-case ASCII letter, one of these twenty-six. *)
Definition upper_case_letters : string := "ABCDEFGHIJKLMNOPQRSTUVWXYZ".

Definition starts_with_upper_case (k : string) : Prop :=
  exists c rest,
    k = String c rest /\ In c (list_ascii_of_string upper_case_letters).



(** The functions of the heap below: 2 is a [toString] that returns "a",
    the others return their argument. *)
Definition tag_body : fid -> val -> list object -> outcome val * list object :=
  fun f arg sigma =>
    match f with
    | 2 => (Ret (VStr "a"), sigma)
    | _ => (Ret arg, sigma)
    end.

(** A tag that is an object whose [toString] returns "a", the record
    [{kind: tag, x: 1}], and the handler maps [{a: f0, _: f1}], [{_: f1}]
    and [{}] *)
Definition reference_tag_heap : list object :=
  [ function_object 0; function_object 1; function_object 2;
    Object Plain ∅ {[ "toString" := VObj 2 ]};
    record {[ "kind" := VObj 3; "x" := VNum (Number "1") ]};
    record {[ "a" := VObj 0; "_" := VObj 1 ]};
    record {[ "_" := VObj 1 ]};
    record ∅ ].

(** * Properties *)

(** ** Reading the heap *)

Lemma deref_Some (l : loc) (o : object) (s : state) :
  heap s !! l = Some o -> deref l s = (Ret o, s).
Proof. intros H. unfold deref. by rewrite H. Qed.

Lemma get_Some (l : loc) (k : string) (o : object) (s : state) :
  heap s !! l = Some o -> get l k s = (Ret (lookup_prop o k), s).
Proof. intros H. unfold get, bind. by rewrite (deref_Some l o s H). Qed.

Lemma has_Some (l : loc) (k : string) (o : object) (s : state) :
  heap s !! l = Some o -> has l k s = (Ret (has_property o k), s).
Proof. intros H. unfold has, bind. by rewrite (deref_Some l o s H). Qed.

Lemma Object_keys_Some (l : loc) (o : object) (s : state) :
  heap s !! l = Some o ->
  Object_keys l s = (Ret ((map_to_list (own o)).*1), s).
Proof. intros H. unfold Object_keys, bind. by rewrite (deref_Some l o s H). Qed.

Lemma bind_Ret {A B} (m : M A) (k : A -> M B) (a : A) (s s' : state) :
  m s = (Ret a, s') -> bind m k s = k a s'.
Proof. intros H. unfold bind. by rewrite H. Qed.

Lemma call_function
    (body : fid -> val -> list object -> outcome val * list object)
    (l : loc) (o : object) (f : fid) (arg : val) (s : state) :
  heap s !! l = Some o -> class o = Function f ->
  call body (VObj l) arg s = invoke body f arg s.
Proof.
  intros H Hf. unfold call.
  by rewrite (bind_Ret _ _ _ _ _ (deref_Some l o s H)), Hf.
Qed.

Lemma invoke_logged
    (body : fid -> val -> list object -> outcome val * list object)
    (f : fid) (arg : val) (s : state) :
  fst (invoke body f arg s) = fst (body f arg (heap s)) /\
  heap (snd (invoke body f arg s)) = snd (body f arg (heap s)) /\
  calls (snd (invoke body f arg s)) = calls s ++ [(f, arg)].
Proof. unfold invoke. by destruct (body f arg (heap s)). Qed.

Lemma lookup_prop_own (o : object) (k : string) (v : val) :
  own o !! k = Some v -> lookup_prop o k = v.
Proof. intros H. unfold lookup_prop. by rewrite H. Qed.

(** A record with one own key, and what [Object.keys] makes of it. *)
Lemma one_key_list (m : gmap string val) (k : string) (p : val) :
  map_to_list m = [(k, p)] -> m = {[k := p]}.
Proof.
  intros H. rewrite <- (list_to_map_to_list m), H. simpl.
  by rewrite insert_empty.
Qed.

(** ** The classifier *)

Lemma me_scalar (value : val) (s : state) :
  is_scalar value = true -> me value s = (Ret (MEnum value), s).
Proof. by destruct value. Qed.

Lemma me_record (l : loc) (o : object) (s : state) :
  heap s !! l = Some o ->
  me (VObj l) s =
    match map_to_list (own o) with
    | [(k, p)] =>
        if test_upper_first k then (Ret (MUnion (VStr k) p), s)
        else (Ret (MObj l), s)
    | _ => (Ret (MObj l), s)
    end.
Proof.
  intros H. unfold me. cbn [is_nullish].
  unfold bind at 1. unfold typeof. rewrite H.
  replace (includes _ _) with false by (by destruct o as [[]]).
  rewrite (bind_Ret _ _ _ _ _ (Object_keys_Some l o s H)).
  destruct (map_to_list (own o)) as [|[k p] [|kp' rest]] eqn:E; try done.
  simpl. destruct (test_upper_first k) eqn:U; [|done].
  unfold matchableUnion.
  rewrite (bind_Ret _ _ _ _ _ (Object_keys_Some l o s H)), E. simpl.
  unfold ToPropertyKey_primitive, bind. simpl.
  rewrite (get_Some l k o s H).
  by rewrite (lookup_prop_own o k p)
    by (rewrite (one_key_list _ _ _ E); apply lookup_singleton_eq).
Qed.

Lemma me_record_one (l : loc) (o : object) (s : state) (k : string) (p : val) :
  heap s !! l = Some o -> own o = {[k := p]} ->
  me (VObj l) s =
    if test_upper_first k then (Ret (MUnion (VStr k) p), s)
    else (Ret (MObj l), s).
Proof.
  intros H Hown. rewrite (me_record l o s H), Hown.
  by rewrite map_to_list_singleton.
Qed.

Lemma me_record_other (l : loc) (o : object) (s : state) :
  heap s !! l = Some o -> size (own o) <> 1 ->
  me (VObj l) s = (Ret (MObj l), s).
Proof.
  intros H Hsz. rewrite (me_record l o s H).
  rewrite <- length_map_to_list in Hsz.
  by destruct (map_to_list (own o)) as [|[k p] [|kp' rest]].
Qed.

Lemma size_one_key (m : gmap string val) :
  size m = 1 -> exists k p, m = {[k := p]}.
Proof.
  intros Hsz. rewrite <- length_map_to_list in Hsz.
  destruct (map_to_list m) as [|[k p] [|kp' rest]] eqn:E; try done.
  exists k, p. by apply one_key_list.
Qed.

(** The test the code makes on the first key is the spec's: the regular
    expression holds of the names that start with one of the twenty-six
    letters, and of no other (not of the empty name, a digit, a lower-case
    letter, or a character next to the letters in the code table). *)
Lemma test_upper_first_letters (k : string) :
  test_upper_first k = true <-> starts_with_upper_case k.
Proof.
  assert (forall c : ascii,
    (65 <=? nat_of_ascii c) && (nat_of_ascii c <=? 90) =
    existsb (Ascii.eqb c) (list_ascii_of_string upper_case_letters)) as Hc.
  { intros [[] [] [] [] [] [] [] []]; reflexivity. }
  destruct k as [|c rest]; unfold test_upper_first.
  - split; [done|]. by intros (c & rest & Hk & _).
  - rewrite Hc, existsb_exists. split.
    + intros (c' & Hin & Heq). apply Ascii.eqb_eq in Heq as <-.
      by exists c, rest.
    + intros (c' & rest' & [= <- <-] & Hin). exists c.
      split; [done|]. apply Ascii.eqb_refl.
Qed.

Lemma not_test_upper_first (k : string) :
  ~ starts_with_upper_case k -> test_upper_first k = false.
Proof.
  intros H. destruct (test_upper_first k) eqn:E; [|done].
  by apply test_upper_first_letters in E.
Qed.

(** C1: every value is classified as one shape, never the discriminated
    one: null and undefined give the empty matcher; a string, number or
    boolean gives an enum matcher holding it; a record whose only own field
    has a name starting with an upper-case ASCII letter gives a union
    matcher holding that name and the field's value; every other record
    (one field whose name is empty or starts with anything else, no field,
    several fields) gives an object matcher. *)
Theorem me_classifies (value : val) (s : state) :
  (forall l, value = VObj l -> is_Some (heap s !! l)) ->
  exists m,
    me value s = (Ret m, s) /\
    __recognizer__ m ∈ ["empty"; "enum"; "union"; "object"] /\
    (is_nullish value = true -> m = MEmpty) /\
    (is_scalar value = true -> m = MEnum value) /\
    (forall l o, value = VObj l -> heap s !! l = Some o ->
       (forall k p, own o = {[k := p]} -> starts_with_upper_case k ->
          m = MUnion (VStr k) p) /\
       (forall k p, own o = {[k := p]} -> ~ starts_with_upper_case k ->
          m = MObj l) /\
       (size (own o) <> 1 -> m = MObj l)).
Proof.
  intros Hwf. destruct value as [| |b|n|x|l].
  1,2: exists MEmpty; split_and!; try done; set_solver.
  1,2,3: eexists (MEnum _); split_and!; try done; set_solver.
  destruct (Hwf l eq_refl) as [o Ho].
  destruct (decide (size (own o) = 1)) as [Hsz|Hsz].
  - destruct (size_one_key _ Hsz) as (k & p & Hown).
    rewrite (me_record_one l o s k p Ho Hown).
    assert (forall k' p', own o = {[k' := p']} -> k' = k /\ p' = p) as Hsame.
    { intros k' p' Hk'. rewrite Hown in Hk'.
      apply (f_equal map_to_list) in Hk'.
      rewrite !map_to_list_singleton in Hk'. by simplify_eq. }
    destruct (test_upper_first k) eqn:U.
    + exists (MUnion (VStr k) p). split_and!; try done; [by repeat constructor|].
      intros l' o' [= <-] Ho'. simplify_eq. split_and!.
      * intros k' p' Hk' _. by destruct (Hsame k' p' Hk') as [-> ->].
      * intros k' p' Hk' U'. destruct (Hsame k' p' Hk') as [-> ->].
        by apply test_upper_first_letters in U.
      * done.
    + exists (MObj l). split_and!; try done; [by repeat constructor|].
      intros l' o' [= <-] Ho'. simplify_eq. split_and!; [|done..].
      intros k' p' Hk' U'. destruct (Hsame k' p' Hk') as [-> ->].
      apply test_upper_first_letters in U'. congruence.
  - rewrite (me_record_other l o s Ho Hsz).
    exists (MObj l). split_and!; try done; [by repeat constructor|].
    intros l' o' [= <-] Ho'. simplify_eq. split_and!; [..|done];
      intros k' p' Hk'; by rewrite Hk', map_size_singleton in Hsz.
Qed.

(** *** The routing examples of the tests *)

Example me_routes_A :
  me (VObj 0) (State routing_heap []) =
  (Ret (MUnion (VStr "A") (VNum (Number "1"))), State routing_heap []).
Proof. vm_compute. reflexivity. Qed.

Example me_routes_empty_name :
  fst (me (VObj 1) (State routing_heap [])) = Ret (MObj 1).
Proof. vm_compute. reflexivity. Qed.

Example me_routes_digit_name :
  fst (me (VObj 2) (State routing_heap [])) = Ret (MObj 2).
Proof. vm_compute. reflexivity. Qed.

Example me_routes_lower_name :
  fst (me (VObj 3) (State routing_heap [])) = Ret (MObj 3).
Proof. vm_compute. reflexivity. Qed.

Example me_routes_two_fields :
  fst (me (VObj 4) (State routing_heap [])) = Ret (MObj 4).
Proof. vm_compute. reflexivity. Qed.

(** A name that starts with none of the twenty-six letters. *)
Lemma not_upper_case (k : string) :
  match k with
  | EmptyString => true
  | String c _ =>
      negb (existsb (Ascii.eqb c) (list_ascii_of_string upper_case_letters))
  end = true ->
  ~ starts_with_upper_case k.
Proof.
  intros H (c & rest & -> & Hin).
  apply negb_true_iff in H.
  assert (existsb (Ascii.eqb c) (list_ascii_of_string upper_case_letters)
          = true) as H'; [|congruence].
  apply existsb_exists. exists c. split; [done|apply Ascii.eqb_refl].
Defined.

(** The routing of the tests, from the theorem: [{A: 1}] is a variant;
    the record with the empty name, [{"1": 2}], [{foo: 1}] and
    [{Foo: 1, bar: 2}] are plain objects. *)
Lemma me_classifies_witness :
  let s := State routing_heap [] in
  me (VObj 0) s = (Ret (MUnion (VStr "A") (VNum (Number "1"))), s) /\
  me (VObj 1) s = (Ret (MObj 1), s) /\
  me (VObj 2) s = (Ret (MObj 2), s) /\
  me (VObj 3) s = (Ret (MObj 3), s) /\
  me (VObj 4) s = (Ret (MObj 4), s).
Proof.
  intros s.
  assert (forall l, l < 5 ->
            forall l', VObj l = VObj l' -> is_Some (heap s !! l')) as Hwf.
  { intros l Hl l' [= <-]. apply lookup_lt_is_Some. simpl. lia. }
  destruct (me_classifies (VObj 0) s (Hwf 0 ltac:(lia)))
    as (m0 & Hm0 & _ & _ & _ & H0).
  destruct (me_classifies (VObj 1) s (Hwf 1 ltac:(lia)))
    as (m1 & Hm1 & _ & _ & _ & H1).
  destruct (me_classifies (VObj 2) s (Hwf 2 ltac:(lia)))
    as (m2 & Hm2 & _ & _ & _ & H2).
  destruct (me_classifies (VObj 3) s (Hwf 3 ltac:(lia)))
    as (m3 & Hm3 & _ & _ & _ & H3).
  destruct (me_classifies (VObj 4) s (Hwf 4 ltac:(lia)))
    as (m4 & Hm4 & _ & _ & _ & H4).
  split_and!.
  - rewrite Hm0. do 2 f_equal.
    destruct (H0 0 _ eq_refl eq_refl) as (Hu & _).
    apply (Hu "A" (VNum (Number "1")) eq_refl).
    exists "A"%char, EmptyString. split; [reflexivity|]. simpl. tauto.
  - rewrite Hm1. do 2 f_equal.
    destruct (H1 1 _ eq_refl eq_refl) as (_ & Ho & _).
    apply (Ho EmptyString (VNum (Number "1")) eq_refl).
    by apply not_upper_case.
  - rewrite Hm2. do 2 f_equal.
    destruct (H2 2 _ eq_refl eq_refl) as (_ & Ho & _).
    apply (Ho "1" (VNum (Number "2")) eq_refl).
    by apply not_upper_case.
  - rewrite Hm3. do 2 f_equal.
    destruct (H3 3 _ eq_refl eq_refl) as (_ & Ho & _).
    apply (Ho "foo" (VNum (Number "1")) eq_refl).
    by apply not_upper_case.
  - rewrite Hm4. do 2 f_equal.
    destruct (H4 4 _ eq_refl eq_refl) as (_ & _ & Hsz).
    apply Hsz. vm_compute. discriminate.
Defined.

(** ** The empty matcher *)

(** C2 as stated fails: on absent input, [match({_: () => "X"})] does not
    give ["X"].  The handler gives ["X"] when it is called with an absent
    argument, but [match] returns null and calls nothing.  (The tests of
    the repository expect just that: [n.match({ _: () => "ignored" })] is
    null.) *)
Lemma emptyMatchable_match_ignores_default :
  let s := State default_X_heap [] in
  let X := const_body (fun _ => VStr "X") in
  me VNull s = (Ret emptyMatchable, s) /\
  fst (call X (VObj 0) VUndefined s) = Ret (VStr "X") /\
  fst (emptyMatchable_match 1 s) = Ret VNull /\
  calls (snd (emptyMatchable_match 1 s)) = [] /\
  emptyMatchable_match 1 s <> call X (VObj 0) VUndefined s.
Proof. vm_compute. split_and!; try reflexivity. discriminate. Qed.

(** C2, amended: null and undefined are classified as the empty matcher,
    and [match] on it returns null for every handler map, with or without a
    default handler in it, and runs no handler (the state, with its log of
    calls, is as before). *)
Theorem emptyMatchable_match_null (h : loc) (s : state) :
  me VNull s = (Ret emptyMatchable, s) /\
  me VUndefined s = (Ret emptyMatchable, s) /\
  emptyMatchable_match h s = (Ret VNull, s).
Proof. by split_and!. Qed.

(** ** Computations that only read, and computations that call no handler *)

Lemma reads_ret {A} (a : A) : reads (ret a).
Proof. by intros s. Qed.

Lemma reads_stuck {A} : reads (stuck : M A).
Proof. by intros s. Qed.

Lemma reads_bind {A B} (m : M A) (k : A -> M B) :
  reads m -> (forall a, reads (k a)) -> reads (bind m k).
Proof.
  intros Hm Hk s. unfold bind. specialize (Hm s).
  destruct (m s) as [[a|e|] s']; simpl in *; subst; try done.
  apply Hk.
Qed.

Lemma reads_deref (l : loc) : reads (deref l).
Proof. intros s. unfold deref. by destruct (heap s !! l). Qed.

Lemma reads_get (l : loc) (k : string) : reads (get l k).
Proof. apply reads_bind; [apply reads_deref|intros; apply reads_ret]. Qed.

Lemma quiet_ret {A} (a : A) : quiet (ret a).
Proof. by intros s. Qed.

Lemma quiet_throw {A} (e : exn) : quiet (throw e : M A).
Proof. by intros s. Qed.

Lemma quiet_reads {A} (m : M A) : reads m -> quiet m.
Proof. intros H s. by rewrite H. Qed.

Lemma quiet_bind {A B} (m : M A) (k : A -> M B) :
  quiet m -> (forall a, quiet (k a)) -> quiet (bind m k).
Proof.
  intros Hm Hk s. unfold bind. specialize (Hm s).
  destruct (m s) as [[a|e|] s']; simpl in *; try done.
  by rewrite Hk.
Qed.

Lemma quiet_get (l : loc) (k : string) : quiet (get l k).
Proof. apply quiet_reads, reads_get. Qed.

Lemma quiet_has (l : loc) (k : string) : quiet (has l k).
Proof.
  apply quiet_reads, reads_bind; [apply reads_deref|intros; apply reads_ret].
Qed.

Lemma quiet_stuck {A} : quiet (stuck : M A).
Proof. by intros s. Qed.

Lemma quiet_run
    (body : fid -> val -> list object -> outcome val * list object)
    (f : fid) (arg : val) :
  quiet (run body f arg).
Proof. intros s. unfold run. by destruct (body f arg (heap s)). Qed.

Lemma quiet_call_method
    (body : fid -> val -> list object -> outcome val * list object)
    (l : loc) (name : string) :
  quiet (call_method body l name).
Proof.
  unfold call_method. apply quiet_bind; [apply quiet_get|].
  intros [| |b|n|x|lm]; try apply quiet_ret.
  apply quiet_bind; [apply quiet_reads, reads_deref|].
  intros [[| |f] ow pr]; try apply quiet_ret.
  cbn [class]. apply quiet_bind; [apply quiet_run|].
  intros r. apply quiet_ret.
Qed.

Lemma quiet_OrdinaryToPrimitive
    (body : fid -> val -> list object -> outcome val * list object)
    (l : loc) :
  quiet (OrdinaryToPrimitive body l).
Proof.
  unfold OrdinaryToPrimitive.
  apply quiet_bind; [apply quiet_call_method|]. intros r1.
  destruct (primitive_result r1); [apply quiet_ret|].
  apply quiet_bind; [apply quiet_call_method|]. intros r2.
  destruct (primitive_result r2); [apply quiet_ret|apply quiet_throw].
Qed.

(** Finding the key of a value calls no handler, also when it runs the
    conversion methods of a reference. *)
Lemma quiet_ToString
    (body : fid -> val -> list object -> outcome val * list object)
    (v : val) :
  quiet (ToString body v).
Proof.
  unfold ToString. destruct v as [| |b|n|x|l];
    try (destruct (String_ _); [apply quiet_ret|apply quiet_stuck]).
  apply quiet_bind; [apply quiet_OrdinaryToPrimitive|]. intros p.
  destruct (String_ p); [apply quiet_ret|apply quiet_stuck].
Qed.

(** ** The discriminated matcher *)

Section Disc.

Variable body : fid -> val -> list object -> outcome val * list object.
Variable Object_prototype : gmap string val.

Lemma insert_last (sigma : list object) (x y : object) :
  <[length sigma := y]> (sigma ++ [x]) = sigma ++ [y].
Proof.
  replace (length sigma) with (length sigma + 0) by lia.
  by rewrite insert_app_r.
Qed.

Lemma _disc_payload_fresh (obj : loc) (key : string) (o : object) (s : state) :
  heap s !! obj = Some o ->
  _disc_payload Object_prototype obj key s =
    (Ret (VObj (length (heap s))),
     with_object s (bare_payload Object_prototype o key)).
Proof.
  intros H. unfold _disc_payload, spread.
  unfold bind at 1. unfold bind at 1. rewrite (deref_Some obj o s H).
  unfold alloc, bind, delete_prop, with_object, bare_payload, ret. simpl.
  rewrite list_lookup_middle by done. simpl.
  by rewrite insert_last.
Qed.

Lemma is_nullish__disc_key (t : val) : is_nullish (_disc_key t) = is_nullish t.
Proof. by destruct t. Qed.

(** The key of a primitive is its string, and finding it changes nothing. *)
Lemma ToString_primitive (v : val) (k : string) (s : state) :
  String_ v = Some k -> ToString body v s = (Ret k, s).
Proof. intros Hk. destruct v; try done; unfold ToString; by rewrite Hk. Qed.

Lemma ToString_primitive_ret (v : val) (k : string) :
  String_ v = Some k -> ToString body v = ret k.
Proof. intros Hk. destruct v; try done; unfold ToString; by rewrite Hk. Qed.

Lemma ToPropertyKey_primitive_key (v : val) (k : string) (s : state) :
  String_ v = Some k -> ToPropertyKey body v s = (Ret k, s).
Proof. apply ToString_primitive. Qed.

Lemma key_then_has (v : val) (h : loc) (k : string) (oh : object)
    (s s' : state) :
  ToPropertyKey body v s = (Ret k, s') -> heap s' !! h = Some oh ->
  (pk <- ToPropertyKey body v ;; has h pk) s = (Ret (has_property oh k), s').
Proof.
  intros Hk Hh. by rewrite (bind_Ret _ _ _ _ _ Hk), (has_Some h k oh s' Hh).
Qed.

Lemma key_then_get (v : val) (h : loc) (k : string) (oh : object)
    (s s' : state) :
  ToPropertyKey body v s = (Ret k, s') -> heap s' !! h = Some oh ->
  (pk <- ToPropertyKey body v ;; get h pk) s = (Ret (lookup_prop oh k), s').
Proof.
  intros Hk Hh. by rewrite (bind_Ret _ _ _ _ _ Hk), (get_Some h k oh s' Hh).
Qed.

(** The four ways through [match] for a tag that is not null or undefined,
    whatever the tag is: the key is found once for the [in] test and once
    more for the lookup, each time in the state the previous step left. *)
Lemma matchableDisc_match_hit_any (key : string) (value h : loc) (tag : val)
    (o2 oh1 oh2 : object) (k1 k2 : string) (s s1 s2 : state) :
  is_nullish tag = false ->
  ToPropertyKey body (_disc_key tag) s = (Ret k1, s1) ->
  heap s1 !! h = Some oh1 -> has_property oh1 k1 = true ->
  ToPropertyKey body (_disc_key tag) s1 = (Ret k2, s2) ->
  heap s2 !! h = Some oh2 -> truthy (lookup_prop oh2 k2) = true ->
  heap s2 !! value = Some o2 ->
  matchableDisc_match body Object_prototype key value tag h s =
    call body (lookup_prop oh2 k2) (VObj (length (heap s2)))
      (with_object s2 (bare_payload Object_prototype o2 key)).
Proof.
  intros Hn Hk1 Hh1 Hhas Hk2 Hh2 Hfn Hv. unfold matchableDisc_match.
  rewrite Hn, is_nullish__disc_key, Hn. cbn [negb].
  rewrite (bind_Ret _ _ _ _ _ (key_then_has _ h k1 oh1 s s1 Hk1 Hh1)), Hhas.
  rewrite (bind_Ret _ _ _ _ _ (key_then_get _ h k2 oh2 s1 s2 Hk2 Hh2)), Hfn.
  cbn [negb].
  by rewrite (bind_Ret _ _ _ _ _ (_disc_payload_fresh value key o2 s2 Hv)).
Qed.

Lemma matchableDisc_match_miss_any (key : string) (value h : loc) (tag : val)
    (oh1 : object) (k1 : string) (s s1 : state) :
  is_nullish tag = false ->
  ToPropertyKey body (_disc_key tag) s = (Ret k1, s1) ->
  heap s1 !! h = Some oh1 -> has_property oh1 k1 = false ->
  truthy (lookup_prop oh1 "_") = true ->
  matchableDisc_match body Object_prototype key value tag h s =
    call body (lookup_prop oh1 "_") (VObj value) s1.
Proof.
  intros Hn Hk1 Hh1 Hhas Hfn. unfold matchableDisc_match.
  rewrite Hn, is_nullish__disc_key, Hn. cbn [negb].
  rewrite (bind_Ret _ _ _ _ _ (key_then_has _ h k1 oh1 s s1 Hk1 Hh1)), Hhas.
  by rewrite (bind_Ret _ _ _ _ _ (get_Some h "_" oh1 s1 Hh1)), Hfn.
Qed.

Lemma matchableDisc_match_hollow_any (key : string) (value h : loc) (tag : val)
    (oh1 oh2 : object) (k1 k2 k3 : string) (s s1 s2 s3 : state) :
  is_nullish tag = false ->
  ToPropertyKey body (_disc_key tag) s = (Ret k1, s1) ->
  heap s1 !! h = Some oh1 -> has_property oh1 k1 = true ->
  ToPropertyKey body (_disc_key tag) s1 = (Ret k2, s2) ->
  heap s2 !! h = Some oh2 -> truthy (lookup_prop oh2 k2) = false ->
  ToString body (_disc_key tag) s2 = (Ret k3, s3) ->
  matchableDisc_match body Object_prototype key value tag h s =
    (Throw (Error ("match(): no handler for key=" ++ key ++ " tag=" ++ k3)), s3).
Proof.
  intros Hn Hk1 Hh1 Hhas Hk2 Hh2 Hfn Hk3. unfold matchableDisc_match.
  rewrite Hn, is_nullish__disc_key, Hn. cbn [negb].
  rewrite (bind_Ret _ _ _ _ _ (key_then_has _ h k1 oh1 s s1 Hk1 Hh1)), Hhas.
  rewrite (bind_Ret _ _ _ _ _ (key_then_get _ h k2 oh2 s1 s2 Hk2 Hh2)), Hfn.
  cbn [negb].
  by rewrite (bind_Ret _ _ _ _ _ Hk3).
Qed.

Lemma matchableDisc_match_none_any (key : string) (value h : loc) (tag : val)
    (oh1 : object) (k1 k3 : string) (s s1 s3 : state) :
  is_nullish tag = false ->
  ToPropertyKey body (_disc_key tag) s = (Ret k1, s1) ->
  heap s1 !! h = Some oh1 -> has_property oh1 k1 = false ->
  truthy (lookup_prop oh1 "_") = false ->
  ToString body (_disc_key tag) s1 = (Ret k3, s3) ->
  matchableDisc_match body Object_prototype key value tag h s =
    (Throw (Error ("match(): no handler for key=" ++ key ++ " tag=" ++ k3)), s3).
Proof.
  intros Hn Hk1 Hh1 Hhas Hfn Hk3. unfold matchableDisc_match.
  rewrite Hn, is_nullish__disc_key, Hn. cbn [negb].
  rewrite (bind_Ret _ _ _ _ _ (key_then_has _ h k1 oh1 s s1 Hk1 Hh1)), Hhas.
  rewrite (bind_Ret _ _ _ _ _ (get_Some h "_" oh1 s1 Hh1)), Hfn.
  cbn [negb].
  by rewrite (bind_Ret _ _ _ _ _ Hk3).
Qed.

Lemma matchableDisc_match_hit (key : string) (value h : loc) (tag : val)
    (o oh : object) (k : string) (s : state) :
  heap s !! value = Some o -> heap s !! h = Some oh ->
  is_nullish tag = false -> String_ (_disc_key tag) = Some k ->
  has_property oh k = true -> truthy (lookup_prop oh k) = true ->
  matchableDisc_match body Object_prototype key value tag h s =
    call body (lookup_prop oh k) (VObj (length (heap s)))
      (with_object s (bare_payload Object_prototype o key)).
Proof.
  intros Hv Hh Hn Hk Hhas Hfn.
  pose proof (ToPropertyKey_primitive_key _ k s Hk) as Hkey.
  by apply (matchableDisc_match_hit_any key value h tag o oh oh k k s s s).
Qed.

Lemma matchableDisc_match_miss (key : string) (value h : loc) (tag : val)
    (oh : object) (k : string) (s : state) :
  heap s !! h = Some oh ->
  is_nullish tag = false -> String_ (_disc_key tag) = Some k ->
  has_property oh k = false -> truthy (lookup_prop oh "_") = true ->
  matchableDisc_match body Object_prototype key value tag h s =
    call body (lookup_prop oh "_") (VObj value) s.
Proof.
  intros Hh Hn Hk Hhas Hfn.
  pose proof (ToPropertyKey_primitive_key _ k s Hk) as Hkey.
  by apply (matchableDisc_match_miss_any key value h tag oh k s s).
Qed.

Lemma matchableDisc_match_absent_tag (key : string) (value h : loc) (tag : val)
    (oh : object) (s : state) :
  heap s !! h = Some oh ->
  is_nullish tag = true -> truthy (lookup_prop oh "_") = true ->
  matchableDisc_match body Object_prototype key value tag h s =
    call body (lookup_prop oh "_") (VObj value) s.
Proof.
  intros Hh Hn Hfn. unfold matchableDisc_match.
  rewrite Hn. simpl.
  unfold bind at 1. unfold ret at 1. unfold bind at 1.
  by rewrite (get_Some h "_" oh s Hh), Hfn.
Qed.

Lemma matchableDisc_match_no_handler (key : string) (value h : loc) (tag : val)
    (oh : object) (k : string) (s : state) :
  heap s !! h = Some oh ->
  is_nullish tag = false -> String_ (_disc_key tag) = Some k ->
  truthy (lookup_prop oh k) = false -> truthy (lookup_prop oh "_") = false ->
  matchableDisc_match body Object_prototype key value tag h s =
    (Throw (Error ("match(): no handler for key=" ++ key ++ " tag=" ++ k)), s).
Proof.
  intros Hh Hn Hk Hfn Hd.
  pose proof (ToPropertyKey_primitive_key _ k s Hk) as Hkey.
  pose proof (ToString_primitive _ k s Hk) as Hstr.
  destruct (has_property oh k) eqn:Hhas.
  - by apply (matchableDisc_match_hollow_any key value h tag oh oh k k k s s s s).
  - by apply (matchableDisc_match_none_any key value h tag oh k k s s s).
Qed.

Lemma matchableDisc_match_no_handler_absent_tag (key : string) (value h : loc)
    (tag : val) (oh : object) (s : state) :
  heap s !! h = Some oh ->
  is_nullish tag = true -> truthy (lookup_prop oh "_") = false ->
  matchableDisc_match body Object_prototype key value tag h s =
    (Throw (Error ("match(): no handler for key=" ++ key ++ " tag=null")), s).
Proof.
  intros Hh Hn Hd. unfold matchableDisc_match.
  rewrite Hn. simpl.
  unfold bind at 1. unfold ret at 1. unfold bind at 1.
  by rewrite (get_Some h "_" oh s Hh), Hd.
Qed.

End Disc.

Lemma matchableObj_as_tag (value : loc) (key : string) (o : object) (s : state) :
  heap s !! value = Some o ->
  matchableObj_as value key s = (Ret (MDisc key value (lookup_prop o key)), s).
Proof.
  intros H. unfold matchableObj_as, matchableDisc.
  by rewrite (bind_Ret _ _ _ _ _ (get_Some value key o s H)).
Qed.

Lemma scalar_key (tag : val) :
  is_scalar tag = true -> is_Some (String_ (_disc_key tag)).
Proof. destruct tag as [| |[]| | |]; simpl; try done; eauto. Qed.

(** C3: on the record [value] with discriminant [key], the tag is
    [value[key]]; a boolean tag is looked up under "true" or "false", any
    other under its own key.  When that key is in the handler map with a
    handler under it, the handler is called with a new record that has the
    fields of [value] but [key]; when the key is not in the map, or the tag
    is null or undefined, and the map has a handler under [_], that handler
    is called with [value] itself.  This is stated twice: for a tag that is
    a string, a number or a boolean, whose key is its string and is found
    without running anything; and for any tag that is not null or
    undefined, a reference included, whose key is what its conversion
    returns, once for the [in] test and once more for the lookup, the
    record and the map being read in the state the conversions leave. *)
Theorem matchableDisc_match_dispatch
    (body : fid -> val -> list object -> outcome val * list object)
    (Object_prototype : gmap string val)
    (key : string) (value h : loc) (o oh : object) (s : state) :
  heap s !! value = Some o -> heap s !! h = Some oh ->
  let tag := lookup_prop o key in
  let match_ := matchableDisc_match body Object_prototype key value tag h in
  matchableObj_as value key s = (Ret (MDisc key value tag), s) /\
  _disc_key (VBool true) = VStr "true" /\
  _disc_key (VBool false) = VStr "false" /\
  (is_scalar tag = true -> is_Some (String_ (_disc_key tag))) /\
  (forall k, is_nullish tag = false -> String_ (_disc_key tag) = Some k ->
     (has_property oh k = true -> truthy (lookup_prop oh k) = true ->
        match_ s =
          call body (lookup_prop oh k) (VObj (length (heap s)))
            (with_object s (bare_payload Object_prototype o key))) /\
     (has_property oh k = false -> truthy (lookup_prop oh "_") = true ->
        match_ s = call body (lookup_prop oh "_") (VObj value) s)) /\
  (is_nullish tag = true -> truthy (lookup_prop oh "_") = true ->
     match_ s = call body (lookup_prop oh "_") (VObj value) s) /\
  (forall k1 s1 oh1, is_nullish tag = false ->
     ToPropertyKey body (_disc_key tag) s = (Ret k1, s1) ->
     heap s1 !! h = Some oh1 ->
     (forall k2 s2 oh2 o2, has_property oh1 k1 = true ->
        ToPropertyKey body (_disc_key tag) s1 = (Ret k2, s2) ->
        heap s2 !! h = Some oh2 -> truthy (lookup_prop oh2 k2) = true ->
        heap s2 !! value = Some o2 ->
        match_ s =
          call body (lookup_prop oh2 k2) (VObj (length (heap s2)))
            (with_object s2 (bare_payload Object_prototype o2 key))) /\
     (has_property oh1 k1 = false -> truthy (lookup_prop oh1 "_") = true ->
        match_ s = call body (lookup_prop oh1 "_") (VObj value) s1)).
Proof.
  intros Hv Hh tag match_. split_and!; try done.
  - by apply matchableObj_as_tag.
  - apply scalar_key.
  - intros k Hn Hk. split; intros Hhas Hfn.
    + by apply matchableDisc_match_hit.
    + by apply matchableDisc_match_miss with (k := k).
  - intros Hn Hfn. by apply matchableDisc_match_absent_tag.
  - intros k1 s1 oh1 Hn Hk1 Hh1. split.
    + intros k2 s2 oh2 o2 Hhas Hk2 Hh2 Hfn Hv2.
      by apply (matchableDisc_match_hit_any body Object_prototype key value h
                  tag o2 oh1 oh2 k1 k2 s s1 s2).
    + intros Hhas Hfn.
      by apply (matchableDisc_match_miss_any body Object_prototype key value h
                  tag oh1 k1 s s1).
Qed.

(** The test's [{kind: "a", x: 1, y: 2}] against [{a: f0, _: f1}] and
    [{b: f0, _: f1}], a number tag that prints as [1e+21] against a map
    that has the key [1e+21], and a tag that is an object whose [toString]
    returns "a" against [{a: f0, _: f1}] and [{_: f1}]. *)
Lemma matchableDisc_match_dispatch_witness :
  let s := State kinded_heap [] in
  let big := record {[ "kind" := VNum (Number "1e+21") ]} in
  let sb := State [function_object 0; big; record {[ "1e+21" := VObj 0 ]}] [] in
  let sr := State reference_tag_heap [] in
  matchableDisc_match echo_body ∅ "kind" 2 (VStr "a") 3 s =
    (Ret (VObj 6),
     State (kinded_heap ++ [record {[ "x" := VNum (Number "1"); "y" := VNum (Number "2") ]}])
       [(0, VObj 6)]) /\
  matchableDisc_match echo_body ∅ "kind" 2 (VStr "a") 4 s =
    (Ret (VObj 2), State kinded_heap [(1, VObj 2)]) /\
  matchableDisc_match echo_body ∅ "kind" 1 (VNum (Number "1e+21")) 2 sb =
    (Ret (VObj 3), State (heap sb ++ [record ∅]) [(0, VObj 3)]) /\
  matchableDisc_match tag_body ∅ "kind" 4 (VObj 3) 5 sr =
    (Ret (VObj 8),
     State (reference_tag_heap ++ [record {[ "x" := VNum (Number "1") ]}])
       [(0, VObj 8)]) /\
  matchableDisc_match tag_body ∅ "kind" 4 (VObj 3) 6 sr =
    (Ret (VObj 4), State reference_tag_heap [(1, VObj 4)]).
Proof.
  intros s big sb sr.
  destruct (matchableDisc_match_dispatch echo_body ∅ "kind" 2 3
              (record {[ "kind" := VStr "a"; "x" := VNum (Number "1"); "y" := VNum (Number "2") ]})
              (record {[ "a" := VObj 0; "_" := VObj 1 ]}) s eq_refl eq_refl)
    as (_ & _ & _ & _ & Hhit & _).
  destruct (matchableDisc_match_dispatch echo_body ∅ "kind" 2 4
              (record {[ "kind" := VStr "a"; "x" := VNum (Number "1"); "y" := VNum (Number "2") ]})
              (record {[ "b" := VObj 0; "_" := VObj 1 ]}) s eq_refl eq_refl)
    as (_ & _ & _ & _ & Hmiss & _).
  destruct (matchableDisc_match_dispatch echo_body ∅ "kind" 1 2
              big (record {[ "1e+21" := VObj 0 ]}) sb eq_refl eq_refl)
    as (_ & _ & _ & _ & Hbig & _).
  destruct (matchableDisc_match_dispatch tag_body ∅ "kind" 4 5
              (record {[ "kind" := VObj 3; "x" := VNum (Number "1") ]})
              (record {[ "a" := VObj 0; "_" := VObj 1 ]}) sr eq_refl eq_refl)
    as (_ & _ & _ & _ & _ & _ & Href).
  destruct (matchableDisc_match_dispatch tag_body ∅ "kind" 4 6
              (record {[ "kind" := VObj 3; "x" := VNum (Number "1") ]})
              (record {[ "_" := VObj 1 ]}) sr eq_refl eq_refl)
    as (_ & _ & _ & _ & _ & _ & Hrefmiss).
  destruct (Hhit "a" eq_refl eq_refl) as (Hhit' & _).
  destruct (Hmiss "a" eq_refl eq_refl) as (_ & Hmiss').
  destruct (Hbig "1e+21" eq_refl eq_refl) as (Hbig' & _).
  destruct (Href "a" sr _ eq_refl eq_refl eq_refl) as (Href' & _).
  destruct (Hrefmiss "a" sr _ eq_refl eq_refl eq_refl) as (_ & Hrefmiss').
  split_and!.
  - etransitivity; [apply Hhit'; reflexivity|]. vm_compute. reflexivity.
  - etransitivity; [apply Hmiss'; reflexivity|]. vm_compute. reflexivity.
  - etransitivity; [apply Hbig'; reflexivity|]. vm_compute. reflexivity.
  - etransitivity;
      [apply (Href' "a" sr _ _ eq_refl eq_refl eq_refl eq_refl eq_refl)|].
    vm_compute. reflexivity.
  - etransitivity; [apply Hrefmiss'; reflexivity|]. vm_compute. reflexivity.
Defined.

(** C4: when the handler map has no handler under the tag's key and none
    under [_], [match] throws an Error whose message names the discriminant
    field and the tag; no handler is run and no payload is built.  For a
    string, number or boolean tag the message has the tag's key and the
    state is untouched; for a null or undefined tag the message has
    [null]; for any other tag, a reference included, the message has what
    the tag's conversion to a string returns, made after the conversions to
    a key, and the log of handler calls is as it was. *)
Theorem matchableDisc_match_throws
    (body : fid -> val -> list object -> outcome val * list object)
    (Object_prototype : gmap string val)
    (key : string) (value h : loc) (tag : val) (oh : object) (s : state) :
  heap s !! h = Some oh ->
  truthy (lookup_prop oh "_") = false ->
  let match_ := matchableDisc_match body Object_prototype key value tag h in
  let message := fun t : string =>
    ("match(): no handler for key=" ++ key ++ " tag=" ++ t)%string in
  (is_scalar tag = true ->
     exists k, String_ (_disc_key tag) = Some k /\
       (truthy (lookup_prop oh k) = false ->
        match_ s = (Throw (Error (message k)), s))) /\
  (is_nullish tag = true ->
     match_ s = (Throw (Error (message "null")), s)) /\
  (forall k1 s1 oh1, is_nullish tag = false ->
     ToPropertyKey body (_disc_key tag) s = (Ret k1, s1) ->
     heap s1 !! h = Some oh1 ->
     (forall k3 s3, has_property oh1 k1 = false ->
        truthy (lookup_prop oh1 "_") = false ->
        ToString body (_disc_key tag) s1 = (Ret k3, s3) ->
        match_ s = (Throw (Error (message k3)), s3) /\ calls s3 = calls s) /\
     (forall k2 s2 oh2 k3 s3, has_property oh1 k1 = true ->
        ToPropertyKey body (_disc_key tag) s1 = (Ret k2, s2) ->
        heap s2 !! h = Some oh2 -> truthy (lookup_prop oh2 k2) = false ->
        ToString body (_disc_key tag) s2 = (Ret k3, s3) ->
        match_ s = (Throw (Error (message k3)), s3) /\ calls s3 = calls s)).
Proof.
  intros Hh Hd match_ message. split_and!.
  - intros Hs. destruct (scalar_key tag Hs) as [k Hk]. exists k.
    split; [done|]. intros Hfn.
    apply matchableDisc_match_no_handler with (oh := oh); try done.
    by destruct tag.
  - intros Hn. by apply matchableDisc_match_no_handler_absent_tag with (oh := oh).
  - intros k1 s1 oh1 Hn Hk1 Hh1.
    pose proof (quiet_ToString body (_disc_key tag)) as Hq.
    assert (forall (k : string) (sa sb : state),
              ToString body (_disc_key tag) sa = (Ret k, sb) ->
              calls sb = calls sa) as Hcalls.
    { intros k sa sb E. specialize (Hq sa). by rewrite E in Hq. }
    split.
    + intros k3 s3 Hhas Hfn Hk3. split.
      * by apply (matchableDisc_match_none_any body Object_prototype key value
                    h tag oh1 k1 k3 s s1 s3).
      * rewrite (Hcalls _ _ _ Hk3). apply (Hcalls _ _ _ Hk1).
    + intros k2 s2 oh2 k3 s3 Hhas Hk2 Hh2 Hfn Hk3. split.
      * by apply (matchableDisc_match_hollow_any body Object_prototype key
                    value h tag oh1 oh2 k1 k2 k3 s s1 s2 s3).
      * rewrite (Hcalls _ _ _ Hk3), (Hcalls _ _ _ Hk2).
        apply (Hcalls _ _ _ Hk1).
Qed.

(** The test's [{kind: "a", x: 1}] against [{}], and the tag that is an
    object whose [toString] returns "a" against [{}]. *)
Lemma matchableDisc_match_throws_witness :
  matchableDisc_match echo_body ∅ "kind" 2 (VStr "a") 5 (State kinded_heap []) =
    (Throw (Error "match(): no handler for key=kind tag=a"),
     State kinded_heap []) /\
  matchableDisc_match tag_body ∅ "kind" 4 (VObj 3) 7 (State reference_tag_heap []) =
    (Throw (Error "match(): no handler for key=kind tag=a"),
     State reference_tag_heap []).
Proof.
  destruct (matchableDisc_match_throws echo_body ∅ "kind" 2 5 (VStr "a")
              (record ∅) (State kinded_heap []) eq_refl eq_refl)
    as (Hs & _).
  destruct (matchableDisc_match_throws tag_body ∅ "kind" 4 7 (VObj 3)
              (record ∅) (State reference_tag_heap []) eq_refl eq_refl)
    as (_ & _ & Hr).
  destruct (Hs eq_refl) as (k & Hk & Hthrow).
  injection Hk as <-.
  destruct (Hr "a" (State reference_tag_heap []) (record ∅)
              eq_refl eq_refl eq_refl) as (Hnone & _).
  destruct (Hnone "a" (State reference_tag_heap [])
              eq_refl eq_refl eq_refl) as (Hthrow' & _).
  split.
  - apply Hthrow. reflexivity.
  - apply Hthrow'.
Defined.

(** ** The union matcher *)

Lemma matchableUnion_match_found
    (body : fid -> val -> list object -> outcome val * list object)
    (k : string) (p : val) (h : loc) (oh : object) (s : state) :
  heap s !! h = Some oh ->
  matchableUnion_match body (VStr k) p h s =
    call body
      (if is_nullish (lookup_prop oh k) then lookup_prop oh "_"
       else lookup_prop oh k) p s.
Proof.
  intros Hh. unfold matchableUnion_match, ToPropertyKey, ToString. simpl.
  unfold bind at 1. unfold ret at 1.
  unfold bind at 1. rewrite (get_Some h k oh s Hh).
  destruct (is_nullish (lookup_prop oh k)).
  - unfold bind. by rewrite (get_Some h "_" oh s Hh).
  - done.
Qed.

Lemma matchableObj_match_tag
    (body : fid -> val -> list object -> outcome val * list object)
    (Object_prototype : gmap string val)
    (value : loc) (key : string) (handlers : loc) (o : object) (s : state) :
  heap s !! value = Some o ->
  matchableObj_match body Object_prototype value key handlers s =
    matchableDisc_match body Object_prototype key value (lookup_prop o key)
      handlers s.
Proof.
  intros H. unfold matchableObj_match.
  by rewrite (bind_Ret _ _ _ _ _ (get_Some value key o s H)).
Qed.

(** C5: for a record [src] whose only field [k] has an upper-case first
    letter and holds [p], [me] gives the union matcher of [k] and [p];
    its [match] calls the handler under [k] with [p], and when there is
    none (null or undefined under [k]) it calls the handler under [_],
    again with [p].  The discriminated matcher over the same record and
    handler map, taking [k] as the discriminant, calls the default handler
    with the record [src] itself. *)
Theorem matchableUnion_match_payload
    (body : fid -> val -> list object -> outcome val * list object)
    (Object_prototype : gmap string val)
    (src h : loc) (o oh : object) (k : string) (p : val) (s : state) :
  heap s !! src = Some o -> own o = {[k := p]} ->
  test_upper_first k = true ->
  heap s !! h = Some oh ->
  me (VObj src) s = (Ret (MUnion (VStr k) p), s) /\
  (is_nullish (lookup_prop oh k) = false ->
     matchableUnion_match body (VStr k) p h s =
       call body (lookup_prop oh k) p s) /\
  (is_nullish (lookup_prop oh k) = true ->
     matchableUnion_match body (VStr k) p h s =
       call body (lookup_prop oh "_") p s) /\
  ((is_nullish p = true \/
    exists pk, String_ (_disc_key p) = Some pk /\ has_property oh pk = false) ->
   truthy (lookup_prop oh "_") = true ->
   matchableObj_match body Object_prototype src k h s =
     call body (lookup_prop oh "_") (VObj src) s).
Proof.
  intros Hsrc Hown U Hh. split_and!.
  - by rewrite (me_record_one src o s k p Hsrc Hown), U.
  - intros Hn. by rewrite (matchableUnion_match_found body k p h oh s Hh), Hn.
  - intros Hn. by rewrite (matchableUnion_match_found body k p h oh s Hh), Hn.
  - intros Hmiss Hd.
    rewrite (matchableObj_match_tag body Object_prototype src k h o s Hsrc).
    rewrite (lookup_prop_own o k p) by (rewrite Hown; apply lookup_singleton_eq).
    destruct (is_nullish p) eqn:Hp.
    + by apply matchableDisc_match_absent_tag with (oh := oh).
    + destruct Hmiss as [|(pk & Hpk & Hhas)]; [done|].
      by apply matchableDisc_match_miss with (oh := oh) (k := pk).
Qed.

Lemma matchableUnion_match_payload_witness :
  let s := State circle_heap [] in
  me (VObj 3) s = (Ret (MUnion (VStr "Circle") (VObj 2)), s) /\
  matchableUnion_match echo_body (VStr "Circle") (VObj 2) 4 s =
    (Ret (VObj 2), State circle_heap [(0, VObj 2)]) /\
  matchableUnion_match echo_body (VStr "Circle") (VObj 2) 5 s =
    (Ret (VObj 2), State circle_heap [(1, VObj 2)]).
Proof.
  intros s.
  destruct (matchableUnion_match_payload echo_body ∅ 3 4
              (record {[ "Circle" := VObj 2 ]})
              (record {[ "Circle" := VObj 0; "_" := VObj 1 ]})
              "Circle" (VObj 2) s eq_refl eq_refl eq_refl eq_refl)
    as (Hme & Hhit & _ & _).
  destruct (matchableUnion_match_payload echo_body ∅ 3 5
              (record {[ "Circle" := VObj 2 ]})
              (record {[ "_" := VObj 1 ]})
              "Circle" (VObj 2) s eq_refl eq_refl eq_refl eq_refl)
    as (_ & _ & Hdef & _).
  split_and!.
  - exact Hme.
  - etransitivity; [apply Hhit; reflexivity|]. vm_compute. reflexivity.
  - etransitivity; [apply Hdef; reflexivity|]. vm_compute. reflexivity.
Defined.

(** ** The enum matcher *)

Lemma matchableEnum_match_run
    (body : fid -> val -> list object -> outcome val * list object)
    (value : val) (k : string) (h : loc) (oh : object) (s : state) :
  heap s !! h = Some oh ->
  String_ (_disc_key value) = Some k ->
  matchableEnum_match body value h s =
    call body (if has_property oh k then lookup_prop oh k
               else lookup_prop oh "_") value s.
Proof.
  intros Hh Hk. unfold matchableEnum_match.
  change (match value with
          | VBool b => VStr (if b then "true" else "false")
          | _ => value
          end) with (_disc_key value).
  pose proof (ToPropertyKey_primitive_key body _ k s Hk) as Hkey.
  rewrite (bind_Ret _ _ _ _ _ Hkey).
  rewrite (bind_Ret _ _ _ _ _ (has_Some h k oh s Hh)).
  destruct (has_property oh k).
  - by rewrite (bind_Ret _ _ _ _ _ (key_then_get body _ h k oh s s Hkey Hh)).
  - by rewrite (bind_Ret _ _ _ _ _ (get_Some h "_" oh s Hh)).
Qed.

(** C7: for a string, number or boolean [value], [me] gives the enum
    matcher of [value]; [match] looks under the key of [value] (the string
    itself, the numeral of a number, "true" or "false" for a boolean): when
    the key is in the handler map, what is under it is called with [value]
    and its result returned; otherwise what is under [_] is called with
    [value]. *)
Theorem matchableEnum_match_dispatch
    (body : fid -> val -> list object -> outcome val * list object)
    (value : val) (h : loc) (oh : object) (s : state) :
  is_scalar value = true -> heap s !! h = Some oh ->
  me value s = (Ret (MEnum value), s) /\
  exists k,
    (forall b, value = VBool b -> k = if b then "true" else "false") /\
    (forall n, value = VNum n -> k = Number_toString n) /\
    (forall x, value = VStr x -> k = x) /\
    (has_property oh k = true ->
       matchableEnum_match body value h s =
         call body (lookup_prop oh k) value s) /\
    (has_property oh k = false ->
       matchableEnum_match body value h s =
         call body (lookup_prop oh "_") value s).
Proof.
  intros Hs Hh. split; [by apply me_scalar|].
  destruct value as [| |b|n|x|l]; try done.
  - exists (if b then "true" else "false").
    pose proof (matchableEnum_match_run body (VBool b)
                  (if b then "true" else "false") h oh s Hh eq_refl) as Hrun.
    split_and!; try done; try (by intros ? [= <-]); intros Hhas;
      by rewrite Hrun, Hhas.
  - exists (Number_toString n).
    pose proof (matchableEnum_match_run body (VNum n) (Number_toString n)
                  h oh s Hh eq_refl) as Hrun.
    split_and!; try done; try (by intros ? [= <-]); intros Hhas;
      by rewrite Hrun, Hhas.
  - exists x.
    pose proof (matchableEnum_match_run body (VStr x) x h oh s Hh eq_refl)
      as Hrun.
    split_and!; try done; try (by intros ? [= <-]); intros Hhas;
      by rewrite Hrun, Hhas.
Qed.

(** The spec's two examples, and two numbers that are no integer
    numerals: the number that prints as [1e+21] and [NaN], each against a
    map that has its key. *)
Lemma matchableEnum_match_dispatch_witness :
  let s := State numbers_heap [] in
  let sn := State [function_object 0; function_object 1;
                   record {[ "1e+21" := VObj 0; "NaN" := VObj 1 ]}] [] in
  matchableEnum_match numbers_body (VNum (Number "2")) 3 s =
    (Ret (VStr "two"), State numbers_heap [(1, VNum (Number "2"))]) /\
  matchableEnum_match numbers_body (VNum (Number "1")) 4 s =
    (Ret (VStr "other"), State numbers_heap [(2, VNum (Number "1"))]) /\
  matchableEnum_match numbers_body (VNum (Number "1e+21")) 2 sn =
    (Ret (VStr "one"), State (heap sn) [(0, VNum (Number "1e+21"))]) /\
  matchableEnum_match numbers_body (VNum (Number "NaN")) 2 sn =
    (Ret (VStr "two"), State (heap sn) [(1, VNum (Number "NaN"))]).
Proof.
  intros s sn.
  destruct (matchableEnum_match_dispatch numbers_body (VNum (Number "2")) 3
              (record {[ "1" := VObj 0; "2" := VObj 1; "_" := VObj 2 ]})
              s eq_refl eq_refl)
    as (_ & k2 & _ & Hk2 & _ & Hhit & _).
  destruct (matchableEnum_match_dispatch numbers_body (VNum (Number "1")) 4
              (record {[ "2" := VObj 1; "_" := VObj 2 ]})
              s eq_refl eq_refl)
    as (_ & k1 & _ & Hk1 & _ & _ & Hmiss).
  destruct (matchableEnum_match_dispatch numbers_body (VNum (Number "1e+21")) 2
              (record {[ "1e+21" := VObj 0; "NaN" := VObj 1 ]})
              sn eq_refl eq_refl)
    as (_ & kb & _ & Hkb & _ & Hbig & _).
  destruct (matchableEnum_match_dispatch numbers_body (VNum (Number "NaN")) 2
              (record {[ "1e+21" := VObj 0; "NaN" := VObj 1 ]})
              sn eq_refl eq_refl)
    as (_ & kn & _ & Hkn & _ & Hnan & _).
  rewrite (Hk2 (Number "2") eq_refl) in Hhit.
  rewrite (Hk1 (Number "1") eq_refl) in Hmiss.
  rewrite (Hkb (Number "1e+21") eq_refl) in Hbig.
  rewrite (Hkn (Number "NaN") eq_refl) in Hnan.
  split_and!.
  - etransitivity; [apply Hhit; vm_compute; reflexivity|].
    vm_compute. reflexivity.
  - etransitivity; [apply Hmiss; vm_compute; reflexivity|].
    vm_compute. reflexivity.
  - etransitivity; [apply Hbig; vm_compute; reflexivity|].
    vm_compute. reflexivity.
  - etransitivity; [apply Hnan; vm_compute; reflexivity|].
    vm_compute. reflexivity.
Defined.

(** ** Empty payloads: [into] and [catch] of the union matcher *)

(** Deep equality with a newly built [[]] holds of the empty arrays and of
    nothing else, and one unit of fuel decides it. *)
Lemma isEqual_empty_array (Array_prototype : gmap string val)
    (payload : val) (s : state) :
  (forall l, payload = VObj l -> is_Some (heap s !! l)) ->
  isEqual payload (VObj (length (heap s)))
    (with_object s (empty_array Array_prototype)) =
  (Ret (is_empty_array (heap s) payload),
   with_object s (empty_array Array_prototype)).
Proof.
  intros Hwf. unfold isEqual.
  set (s' := with_object s (empty_array Array_prototype)).
  assert (equal (S (length (heap s'))) (heap s') payload
            (VObj (length (heap s)))
          = Some (is_empty_array (heap s) payload)) as ->; [|done].
  destruct payload as [| |b|n|x|l]; try done.
  destruct (Hwf l eq_refl) as [o Ho].
  pose proof (lookup_lt_Some _ _ _ Ho) as Hlt.
  cbn [equal]. rewrite decide_False by (intros [= ->]; lia).
  unfold s', with_object. cbn [heap].
  rewrite (lookup_app_l_Some _ _ _ _ Ho).
  rewrite list_lookup_middle by done.
  cbn [is_empty_array class empty_array]. rewrite Ho.
  by destruct o as [[|[|na]|f] ow pr].
Qed.

Section Union.

Variable body : fid -> val -> list object -> outcome val * list object.
Variable Array_prototype : gmap string val.

Lemma matchableUnion_into_absent (fn payload : val) (s : state) :
  is_nullish payload = true ->
  matchableUnion_into body Array_prototype payload fn s = (Ret VNull, s).
Proof. intros H. unfold matchableUnion_into. by rewrite H. Qed.

Lemma matchableUnion_into_present (fn payload : val) (s : state) :
  (forall l, payload = VObj l -> is_Some (heap s !! l)) ->
  is_nullish payload = false ->
  matchableUnion_into body Array_prototype payload fn s =
    if is_empty_array (heap s) payload
    then (Ret VNull, with_object s (empty_array Array_prototype))
    else call body fn payload (with_object s (empty_array Array_prototype)).
Proof.
  intros Hwf H. unfold matchableUnion_into. rewrite H. cbn [negb].
  unfold bind at 1. unfold alloc at 1.
  fold (with_object s (Object (ArrayOf 0) ∅ Array_prototype)).
  fold (empty_array Array_prototype).
  rewrite (bind_Ret _ _ _ _ _ (isEqual_empty_array Array_prototype payload s Hwf)).
  by destruct (is_empty_array (heap s) payload).
Qed.

Lemma matchableUnion_catch_in (tag payload : val) (arr_branch : list val)
    (fn : val) (s : state) :
  matchableUnion_catch body Array_prototype tag payload arr_branch fn s =
    if includes arr_branch tag
    then matchableUnion_into body Array_prototype payload fn s
    else (Ret VNull, s).
Proof.
  unfold matchableUnion_catch, matchableUnion_into, matchableUnion_in.
  by destruct (includes arr_branch tag).
Qed.

End Union.

(** C6: the dispatcher of [into()] returns null, and runs nothing, when
    the payload is null, undefined or an array with no elements, and in
    every other case calls the handler with the payload and returns what it
    returns; the dispatcher of [catch(...tags)] returns null, and runs
    nothing, when the matcher's tag is not among the tags, and otherwise
    does what the dispatcher of [into()] does.  (The only other thing that
    happens is that the [[]] the payload is compared with is built.) *)
Theorem matchableUnion_into_catch
    (body : fid -> val -> list object -> outcome val * list object)
    (Array_prototype : gmap string val)
    (tag payload : val) (arr_branch : list val) (fn : val) (s : state) :
  (forall l, payload = VObj l -> is_Some (heap s !! l)) ->
  let absent := is_nullish payload || is_empty_array (heap s) payload in
  let s' := if is_nullish payload then s
            else with_object s (empty_array Array_prototype) in
  let into := matchableUnion_into body Array_prototype payload in
  let catch := matchableUnion_catch body Array_prototype tag payload in
  calls s' = calls s /\
  (absent = true -> into fn s = (Ret VNull, s')) /\
  (absent = false -> into fn s = call body fn payload s') /\
  (absent = false ->
   forall l o f, fn = VObj l -> heap s !! l = Some o -> class o = Function f ->
     fst (into fn s) = fst (body f payload (heap s')) /\
     calls (snd (into fn s)) = calls s ++ [(f, payload)]) /\
  (includes arr_branch tag = false -> catch arr_branch fn s = (Ret VNull, s)) /\
  (includes arr_branch tag = true -> catch arr_branch fn s = into fn s).
Proof.
  intros Hwf absent s' into catch. subst absent s' into catch.
  assert (is_nullish payload || is_empty_array (heap s) payload = false ->
    matchableUnion_into body Array_prototype payload fn s =
      call body fn payload (with_object s (empty_array Array_prototype)) /\
    is_nullish payload = false) as Hrun.
  { intros Habs. apply orb_false_elim in Habs as [Hn Hemp].
    by rewrite (matchableUnion_into_present _ _ _ _ _ Hwf Hn), Hemp. }
  split_and!.
  - by destruct (is_nullish payload).
  - intros Habs. destruct (is_nullish payload) eqn:Hn.
    + by apply matchableUnion_into_absent.
    + rewrite (matchableUnion_into_present _ _ _ _ _ Hwf Hn).
      simpl in Habs. by rewrite Habs.
  - intros Habs. destruct (Hrun Habs) as [-> ->]. done.
  - intros Habs l o f -> Hl Hf. destruct (Hrun Habs) as [-> ->].
    rewrite (call_function body l o f payload
               (with_object s (empty_array Array_prototype))
               (lookup_app_l_Some _ _ _ _ Hl) Hf).
    destruct (invoke_logged body f payload
                (with_object s (empty_array Array_prototype)))
      as (Hr & _ & Hc).
    by split.
  - intros Hin. by rewrite matchableUnion_catch_in, Hin.
  - intros Hin. by rewrite matchableUnion_catch_in, Hin.
Qed.

Lemma matchableUnion_into_catch_witness :
  let s := State items_heap [] in
  matchableUnion_into echo_body ∅ (VObj 1) (VObj 0) s =
    (Ret (VObj 1), State (items_heap ++ [empty_array ∅]) [(0, VObj 1)]) /\
  matchableUnion_into echo_body ∅ (VObj 2) (VObj 0) s =
    (Ret VNull, State (items_heap ++ [empty_array ∅]) []) /\
  matchableUnion_catch echo_body ∅ (VStr "Items") (VObj 1) [VStr "Other"]
    (VObj 0) s = (Ret VNull, s).
Proof.
  intros s.
  destruct (matchableUnion_into_catch echo_body ∅ (VStr "Items") (VObj 1)
              [VStr "Other"] (VObj 0) s) as (_ & _ & Hcall & _ & Hout & _).
  { intros l [= <-]. vm_compute. eauto. }
  destruct (matchableUnion_into_catch echo_body ∅ (VStr "Items") (VObj 2)
              [VStr "Other"] (VObj 0) s) as (_ & Hnull & _).
  { intros l [= <-]. vm_compute. eauto. }
  split_and!.
  - etransitivity; [apply Hcall; reflexivity|]. vm_compute. reflexivity.
  - etransitivity; [apply Hnull; reflexivity|]. reflexivity.
  - apply Hout. vm_compute. reflexivity.
Defined.

(** ** The object matcher: [catch(...keys)] *)

Lemma picked_fields_lookup_other (o : object) (keys : list string)
    (init : gmap string val) (k : string) :
  k ∉ keys -> picked_fields o keys init !! k = init !! k.
Proof.
  revert init. induction keys as [|k' keys IH]; intros init Hk; [done|].
  apply not_elem_of_cons in Hk as [Hne Hk]. simpl.
  fold (picked_fields o keys (<[k' := lookup_prop o k']> init)).
  rewrite IH by done. by rewrite lookup_insert_ne.
Qed.

Lemma picked_fields_lookup (o : object) (keys : list string)
    (init : gmap string val) (k : string) :
  k ∈ keys -> picked_fields o keys init !! k = Some (lookup_prop o k).
Proof.
  revert init. induction keys as [|k' keys IH]; intros init Hk.
  { by apply elem_of_nil in Hk. }
  simpl. fold (picked_fields o keys (<[k' := lookup_prop o k']> init)).
  destruct (decide (k ∈ keys)) as [Hin|Hout]; [by apply IH|].
  apply elem_of_cons in Hk as [->|Hk]; [|done].
  rewrite picked_fields_lookup_other by done. apply lookup_insert_eq.
Qed.


Lemma some_nullish_existsb (value : loc) (keys : list string) (o : object)
    (s : state) :
  heap s !! value = Some o ->
  some_nullish value keys s =
    (Ret (existsb (fun k => is_nullish (lookup_prop o k)) keys), s).
Proof.
  intros H. induction keys as [|k keys IH]; [done|]. simpl.
  rewrite (bind_Ret _ _ _ _ _ (get_Some value k o s H)).
  by destruct (is_nullish (lookup_prop o k)).
Qed.

Lemma pick_each_fields (value picked : loc) (keys : list string) (o : object)
    (fields pr : gmap string val) (s : state) :
  heap s !! value = Some o ->
  heap s !! picked = Some (Object Plain fields pr) ->
  value <> picked ->
  "__proto__" ∉ keys ->
  pick_each value picked keys s =
    (Ret tt,
     {| heap := <[picked := Object Plain (picked_fields o keys fields) pr]> (heap s);
        calls := calls s |}).
Proof.
  intros Hv Hp Hne. revert fields s Hv Hp.
  induction keys as [|k keys IH]; intros fields s Hv Hp Hk.
  { simpl. unfold ret. rewrite list_insert_id by done. by destruct s. }
  apply not_elem_of_cons in Hk as [Hk0 Hk].
  simpl. rewrite (bind_Ret _ _ _ _ _ (get_Some value k o s Hv)).
  unfold bind at 1. unfold set_prop. rewrite Hp. cbn [class own proto].
  replace (String.eqb k "__proto__") with false
    by (symmetry; apply String.eqb_neq; congruence).
  cbn [andb].
  pose proof (lookup_lt_Some _ _ _ Hp) as Hlt.
  rewrite IH with (fields := <[k := lookup_prop o k]> fields); try done.
  - cbn [heap calls]. by rewrite list_insert_insert_eq.
  - cbn [heap]. by rewrite list_lookup_insert_ne.
  - cbn [heap]. by rewrite list_lookup_insert_eq.
Qed.

Lemma matchableObj_catch_run
    (body : fid -> val -> list object -> outcome val * list object)
    (Object_prototype : gmap string val)
    (value : loc) (keys : list string) (fn : val) (o : object) (s : state) :
  heap s !! value = Some o ->
  "__proto__" ∉ keys ->
  matchableObj_catch body Object_prototype value keys fn s =
    if existsb (fun k => is_nullish (lookup_prop o k)) keys
    then (Ret VNull, s)
    else call body fn (VObj (length (heap s)))
           (with_object s
              (Object Plain (picked_fields o keys ∅) Object_prototype)).
Proof.
  intros Hv Hk. unfold matchableObj_catch.
  rewrite (bind_Ret _ _ _ _ _ (some_nullish_existsb value keys o s Hv)).
  destruct (existsb _ keys); [done|].
  unfold bind at 1. unfold alloc at 1.
  pose proof (lookup_lt_Some _ _ _ Hv) as Hlt.
  unfold bind at 1.
  rewrite (pick_each_fields value (length (heap s)) keys o ∅ Object_prototype);
    cbn [heap calls]; try done.
  - unfold with_object. by rewrite insert_last.
  - by apply lookup_app_l_Some.
  - by apply list_lookup_middle.
  - lia.
Qed.

Lemma existsb_nullish_false (o : object) (keys : list string) :
  (forall k, k ∈ keys -> is_nullish (lookup_prop o k) = false) ->
  existsb (fun k => is_nullish (lookup_prop o k)) keys = false.
Proof.
  intros H. induction keys as [|k keys IH]; [done|]. simpl.
  rewrite H by apply list_elem_of_here.
  apply IH. intros k' Hk'. apply H. by apply list_elem_of_further.
Qed.








(** ** The discriminated matcher leaves its record as it is *)

Lemma keeps_ret {A} (l : loc) (o : object) (a : A) : keeps l o (ret a).
Proof. by intros s H. Qed.

Lemma keeps_throw {A} (l : loc) (o : object) (e : exn) :
  keeps l o (throw e : M A).
Proof. by intros s H. Qed.

Lemma keeps_stuck {A} (l : loc) (o : object) : keeps l o (stuck : M A).
Proof. by intros s H. Qed.

Lemma keeps_bind {A B} (l : loc) (o : object) (m : M A) (k : A -> M B) :
  keeps l o m -> (forall a, keeps l o (k a)) -> keeps l o (bind m k).
Proof.
  intros Hm Hk s H. unfold bind. specialize (Hm s H).
  destruct (m s) as [[a|e|] s']; simpl in *; try done.
  by apply Hk.
Qed.

Lemma keeps_deref (l : loc) (o : object) (l' : loc) : keeps l o (deref l').
Proof. intros s H. unfold deref. by destruct (heap s !! l'). Qed.

Lemma keeps_get (l : loc) (o : object) (l' : loc) (k : string) :
  keeps l o (get l' k).
Proof. apply keeps_bind; [apply keeps_deref|intros; apply keeps_ret]. Qed.

Lemma keeps_has (l : loc) (o : object) (l' : loc) (k : string) :
  keeps l o (has l' k).
Proof. apply keeps_bind; [apply keeps_deref|intros; apply keeps_ret]. Qed.

Create HintDb keeps.
#[local] Hint Resolve keeps_ret keeps_throw keeps_stuck keeps_deref keeps_get
  keeps_has : keeps.

(** Goes through a computation bind by bind and branch by branch. *)
Ltac keeps_steps :=
  repeat first
    [ solve [auto with keeps]
    | apply keeps_bind; [|intros ?]
    | match goal with
      | |- keeps _ _ (if ?b then _ else _) => destruct b
      end ].

Section Frame.

Variable body : fid -> val -> list object -> outcome val * list object.
Variable Object_prototype : gmap string val.
Variable value : loc.
Variable o : object.
Hypothesis body_leaves : leave body value o.

Lemma keeps_call (fn arg : val) : keeps value o (call body fn arg).
Proof.
  destruct fn as [| |b|n|x|l]; try apply keeps_throw.
  apply keeps_bind; [apply keeps_deref|]. intros [[| |f] ow pr];
    try apply keeps_throw.
  intros s H. unfold invoke. cbn [class].
  specialize (body_leaves f arg (heap s) H).
  by destruct (body f arg (heap s)).
Qed.

Lemma keeps_run (f : fid) (arg : val) : keeps value o (run body f arg).
Proof.
  intros s H. unfold run.
  specialize (body_leaves f arg (heap s) H).
  by destruct (body f arg (heap s)).
Qed.

Lemma keeps_call_method (l : loc) (name : string) :
  keeps value o (call_method body l name).
Proof.
  unfold call_method. apply keeps_bind; [apply keeps_get|].
  intros [| |b|n|x|lm]; try apply keeps_ret.
  apply keeps_bind; [apply keeps_deref|]. intros [[| |f] ow pr];
    try apply keeps_ret.
  cbn [class]. apply keeps_bind; [apply keeps_run|].
  intros r. apply keeps_ret.
Qed.

Lemma keeps_OrdinaryToPrimitive (l : loc) :
  keeps value o (OrdinaryToPrimitive body l).
Proof.
  unfold OrdinaryToPrimitive.
  apply keeps_bind; [apply keeps_call_method|]. intros r1.
  destruct (primitive_result r1); [apply keeps_ret|].
  apply keeps_bind; [apply keeps_call_method|]. intros r2.
  destruct (primitive_result r2); [apply keeps_ret|apply keeps_throw].
Qed.

Lemma keeps_ToString (v : val) : keeps value o (ToString body v).
Proof.
  unfold ToString. destruct v as [| |b|n|x|l];
    try (destruct (String_ _); [apply keeps_ret|apply keeps_stuck]).
  apply keeps_bind; [apply keeps_OrdinaryToPrimitive|]. intros p.
  destruct (String_ p); [apply keeps_ret|apply keeps_stuck].
Qed.

(** The copy is made at a new place and the field is deleted from the copy. *)
Lemma keeps__disc_payload (key : string) :
  keeps value o (_disc_payload Object_prototype value key).
Proof.
  intros s H. rewrite (_disc_payload_fresh Object_prototype value key o s H).
  by apply lookup_app_l_Some.
Qed.

#[local] Hint Resolve keeps_call keeps__disc_payload keeps_ToString : keeps.

Lemma keeps_matchableDisc_match (key : string) (tag : val) (h : loc) :
  keeps value o (matchableDisc_match body Object_prototype key value tag h).
Proof. unfold matchableDisc_match, ToPropertyKey. keeps_steps. Qed.

Lemma keeps_matchableDisc_into (key : string) (tag fn : val) :
  keeps value o (matchableDisc_into body Object_prototype key value tag fn).
Proof. unfold matchableDisc_into. keeps_steps. Qed.

Lemma keeps_matchableDisc_catch (key : string) (tag : val)
    (arr_branch : list val) (fn : val) :
  keeps value o
    (matchableDisc_catch body Object_prototype key value tag arr_branch fn).
Proof. unfold matchableDisc_catch. keeps_steps. Qed.

End Frame.

(** C9: the bare payload is a new record, at a place of its own, that has
    the fields of the wrapped record but the discriminant; building it
    leaves the wrapped record as it was.  So after any sequence of [match],
    [into] and [catch] calls on a discriminated matcher, with handlers that
    do not themselves write to the wrapped record, the record is the object
    it was, its discriminant field and every other field included. *)
Theorem matchableDisc_keeps_record
    (body : fid -> val -> list object -> outcome val * list object)
    (Object_prototype : gmap string val)
    (key : string) (value : loc) (tag : val) (o : object)
    (ops : list disc_op) (s : state) :
  leave body value o ->
  heap s !! value = Some o ->
  (exists out s',
     _disc_payload Object_prototype value key s = (Ret (VObj out), s') /\
     out <> value /\
     heap s' !! out = Some (Object Plain (delete key (own o)) Object_prototype) /\
     heap s' !! value = Some o) /\
  heap (run_ops body Object_prototype key value tag ops s) !! value = Some o.
Proof.
  intros Hbody Hv. split.
  - exists (length (heap s)), (with_object s (bare_payload Object_prototype o key)).
    split_and!.
    + by apply _disc_payload_fresh.
    + apply lookup_lt_Some in Hv. lia.
    + by apply list_lookup_middle.
    + by apply lookup_app_l_Some.
  - revert s Hv. induction ops as [|op ops IH]; intros s Hv; [done|].
    simpl. apply IH. destruct op as [h|fn|arr_branch fn]; simpl.
    + by apply keeps_matchableDisc_match.
    + by apply keeps_matchableDisc_into.
    + by apply keeps_matchableDisc_catch.
Qed.

Lemma echo_body_leaves (l : loc) (o : object) : leave echo_body l o.
Proof. intros f arg sigma H. exact H. Defined.

Lemma matchableDisc_keeps_record_witness :
  let s := State kinded_heap [] in
  heap (run_ops echo_body ∅ "kind" 2 (VStr "a")
          [OpMatch 3; OpMatch 4; OpInto (VObj 0); OpCatch [VStr "a"] (VObj 1);
           OpMatch 5] s) !! 2 =
    Some (record {[ "kind" := VStr "a"; "x" := VNum (Number "1"); "y" := VNum (Number "2") ]}).
Proof.
  intros s.
  apply (matchableDisc_keeps_record echo_body ∅ "kind" 2 (VStr "a")
           (record {[ "kind" := VStr "a"; "x" := VNum (Number "1"); "y" := VNum (Number "2") ]})
           _ s (echo_body_leaves _ _) eq_refl).
Defined.

(** * Further properties of the matchers *)

(** ** [into] and [catch] of the discriminated matcher *)

(** X1: on a discriminated matcher whose tag is null or undefined, the
    dispatchers of [into()] and [catch(...)] return null and run nothing.
    With any other tag, [into()] calls the handler with a new record that
    has the fields of the wrapped record but the discriminant, and
    [catch(...tags)] does the same when [in(tags)] holds and returns null,
    running nothing, when it does not. *)
Theorem matchableDisc_into_catch
    (body : fid -> val -> list object -> outcome val * list object)
    (Object_prototype : gmap string val)
    (key : string) (value : loc) (tag : val) (arr_branch : list val)
    (fn : val) (o : object) (s : state) :
  heap s !! value = Some o ->
  let into := matchableDisc_into body Object_prototype key value tag in
  let catch := matchableDisc_catch body Object_prototype key value tag in
  (is_nullish tag = true ->
     into fn s = (Ret VNull, s) /\ catch arr_branch fn s = (Ret VNull, s)) /\
  (is_nullish tag = false ->
     into fn s =
       call body fn (VObj (length (heap s)))
         (with_object s (bare_payload Object_prototype o key))) /\
  (matchableDisc_in tag arr_branch = false ->
     catch arr_branch fn s = (Ret VNull, s)) /\
  (matchableDisc_in tag arr_branch = true ->
     catch arr_branch fn s = into fn s /\ is_nullish tag = false).
Proof.
  intros Hv into catch. subst into catch.
  unfold matchableDisc_into, matchableDisc_catch, matchableDisc_in.
  split_and!.
  - intros ->. done.
  - intros ->.
    by rewrite (bind_Ret _ _ _ _ _
                  (_disc_payload_fresh Object_prototype value key o s Hv)).
  - destruct (is_nullish tag); [done|]. cbn [negb]. by intros ->.
  - destruct (is_nullish tag); [done|]. cbn [negb]. by intros ->.
Qed.

Lemma matchableDisc_into_catch_witness :
  let s := State kinded_heap [] in
  matchableDisc_into echo_body ∅ "kind" 2 (VStr "a") (VObj 0) s =
    (Ret (VObj 6),
     State (kinded_heap ++ [record {[ "x" := VNum (Number "1"); "y" := VNum (Number "2") ]}])
       [(0, VObj 6)]) /\
  matchableDisc_catch echo_body ∅ "kind" 2 (VStr "a") [VStr "b"] (VObj 0) s =
    (Ret VNull, s).
Proof.
  intros s.
  destruct (matchableDisc_into_catch echo_body ∅ "kind" 2 (VStr "a")
              [VStr "b"] (VObj 0)
              (record {[ "kind" := VStr "a"; "x" := VNum (Number "1"); "y" := VNum (Number "2") ]})
              s eq_refl) as (_ & Hinto & Hout & _).
  split.
  - etransitivity; [apply Hinto; reflexivity|]. vm_compute. reflexivity.
  - apply Hout. vm_compute. reflexivity.
Defined.

(** ** The enum matcher built by [me] *)

Lemma is_scalar_not_nullish (value : val) :
  is_scalar value = true -> is_nullish value = false.
Proof. by destruct value. Qed.

(** X2: the enum matcher that [me] builds for a string, number or
    boolean never holds an absent value, so the dispatcher of [into()]
    always calls the handler with the value, and the dispatcher of
    [catch(...values)] calls it exactly when the value is among the listed
    ones ([in] holds) and otherwise returns null and runs nothing. *)
Theorem matchableEnum_into_catch
    (body : fid -> val -> list object -> outcome val * list object)
    (value : val) (arr_branch : list val) (fn : val) (s : state) :
  is_scalar value = true ->
  me value s = (Ret (MEnum value), s) /\
  matchableEnum_into body value fn s = call body fn value s /\
  matchableEnum_in value arr_branch = bool_decide (value ∈ arr_branch) /\
  (value ∈ arr_branch ->
     matchableEnum_catch body value arr_branch fn s = call body fn value s) /\
  (value ∉ arr_branch ->
     matchableEnum_catch body value arr_branch fn s = (Ret VNull, s)).
Proof.
  intros Hs. pose proof (is_scalar_not_nullish value Hs) as Hn.
  unfold matchableEnum_into, matchableEnum_catch, matchableEnum_in, includes.
  rewrite Hn. cbn [negb andb]. split_and!; try done.
  - by apply me_scalar.
  - intros Hin. by rewrite bool_decide_eq_true_2.
  - intros Hout. by rewrite bool_decide_eq_false_2.
Qed.

Lemma matchableEnum_into_catch_witness :
  let s := State numbers_heap [] in
  matchableEnum_into numbers_body (VStr "a") (VObj 1) s =
    (Ret (VStr "two"), State numbers_heap [(1, VStr "a")]) /\
  matchableEnum_catch numbers_body (VStr "b") [VStr "a"] (VObj 1) s =
    (Ret VNull, s).
Proof.
  intros s.
  destruct (matchableEnum_into_catch numbers_body (VStr "a") [VStr "a"]
              (VObj 1) s eq_refl) as (_ & Hinto & _).
  destruct (matchableEnum_into_catch numbers_body (VStr "b") [VStr "a"]
              (VObj 1) s eq_refl) as (_ & _ & _ & _ & Hout).
  split.
  - etransitivity; [apply Hinto|]. vm_compute. reflexivity.
  - apply Hout. intros H. apply list_elem_of_singleton in H. discriminate H.
Defined.

(** ** [value_or] and [value_or_else] *)

(** X3: on an enum matcher, [value_or(f)] is the value and
    [value_or_else(p)] is the value without [p] being called, for every
    string, number or boolean (the matchers [me] builds); only with a null
    or undefined value is [value_or(f)] the fallback [f], and
    [value_or_else(p)] what [p], called with no argument, returns. *)
Theorem value_or_else_lazy
    (body : fid -> val -> list object -> outcome val * list object)
    (value fallback : val) (s : state) :
  (is_scalar value = true ->
     me value s = (Ret (MEnum value), s) /\
     matchableEnum_value_or value fallback = value /\
     matchableEnum_value_or_else body value fallback s = (Ret value, s)) /\
  (is_nullish value = true ->
     matchableEnum_value_or value fallback = fallback /\
     matchableEnum_value_or_else body value fallback s =
       call body fallback VUndefined s).
Proof.
  split.
  - intros Hs. pose proof (is_scalar_not_nullish value Hs) as Hn.
    unfold matchableEnum_value_or, matchableEnum_value_or_else.
    rewrite Hn. split_and!; try done. by apply me_scalar.
  - intros Hn. unfold matchableEnum_value_or, matchableEnum_value_or_else.
    by rewrite Hn.
Qed.

Lemma value_or_else_lazy_witness :
  let s := State default_X_heap [] in
  let X := const_body (fun _ => VStr "X") in
  matchableEnum_value_or_else X (VStr "a") (VObj 0) s = (Ret (VStr "a"), s) /\
  matchableEnum_value_or_else X VNull (VObj 0) s =
    (Ret (VStr "X"), State default_X_heap [(0, VUndefined)]).
Proof.
  intros s X.
  destruct (value_or_else_lazy X (VStr "a") (VObj 0) s) as (Hs & _).
  destruct (value_or_else_lazy X VNull (VObj 0) s) as (_ & Hn).
  destruct (Hs eq_refl) as (_ & _ & Hlazy).
  destruct (Hn eq_refl) as (_ & Hrun).
  split; [exact Hlazy|].
  etransitivity; [apply Hrun|]. vm_compute. reflexivity.
Defined.

(** ** No handler and no default on the enum and union matchers *)




(** ** A key with nothing under it, on the discriminated matcher *)

(** X5: for a tag that is a string, a number or a boolean: when the
    tag's key is in the handler map but what is under it is falsy
    (undefined, say), [match] on the discriminated matcher throws the
    no-handler Error and runs nothing, whether or not the map has a default
    handler under [_]: the default is only looked at when the key is not in
    the map. *)
Theorem matchableDisc_match_hollow_key
    (body : fid -> val -> list object -> outcome val * list object)
    (Object_prototype : gmap string val)
    (key : string) (value h : loc) (tag : val) (oh : object) (k : string)
    (s : state) :
  heap s !! h = Some oh ->
  is_nullish tag = false -> String_ (_disc_key tag) = Some k ->
  has_property oh k = true -> truthy (lookup_prop oh k) = false ->
  matchableDisc_match body Object_prototype key value tag h s =
    (Throw (Error ("match(): no handler for key=" ++ key ++ " tag=" ++ k)), s).
Proof.
  intros Hh Hn Hk Hhas Hfn.
  pose proof (ToPropertyKey_primitive_key body _ k s Hk) as Hkey.
  pose proof (ToString_primitive body _ k s Hk) as Hstr.
  by apply (matchableDisc_match_hollow_any body Object_prototype key value h
              tag oh oh k k k s s s s).
Qed.

Lemma matchableDisc_match_hollow_key_witness :
  truthy (lookup_prop (record {[ "a" := VUndefined; "_" := VObj 0 ]}) "_") = true /\
  matchableDisc_match echo_body ∅ "kind" 2 (VStr "a") 1 (State hollow_heap []) =
    (Throw (Error "match(): no handler for key=kind tag=a"),
     State hollow_heap []).
Proof.
  split; [reflexivity|].
  apply (matchableDisc_match_hollow_key echo_body ∅ "kind" 2 1 (VStr "a")
           (record {[ "a" := VUndefined; "_" := VObj 0 ]}) "a"
           (State hollow_heap []));
    reflexivity.
Defined.

(** ** Classifying reads and nothing else *)

Lemma reads_Object_keys (l : loc) : reads (Object_keys l).
Proof. apply reads_bind; [apply reads_deref|intros; apply reads_ret]. Qed.

Lemma reads_typeof (v : val) : reads (typeof v).
Proof. by intros s. Qed.

Lemma reads_ToPropertyKey_primitive (v : val) :
  reads (ToPropertyKey_primitive v).
Proof.
  unfold ToPropertyKey_primitive.
  destruct (String_ v); [apply reads_ret|apply reads_stuck].
Qed.

Lemma reads_matchableUnion (src : loc) : reads (matchableUnion src).
Proof.
  unfold matchableUnion.
  apply reads_bind; [apply reads_Object_keys|]. intros keys.
  apply reads_bind; [apply reads_ToPropertyKey_primitive|]. intros pk.
  apply reads_bind; [apply reads_get|]. intros payload. apply reads_ret.
Qed.

(** X6: building a matcher only reads: for every value and every state,
    [me] leaves the heap as it was and calls nothing, whatever it returns,
    and so does [as(key)] on an object matcher. *)
Theorem me_reads (value : val) (l : loc) (key : string) (s : state) :
  snd (me value s) = s /\ snd (matchableObj_as l key s) = s.
Proof.
  split.
  - revert s. change (reads (me value)). unfold me.
    destruct (is_nullish value); [apply reads_ret|].
    apply reads_bind; [apply reads_typeof|]. intros t.
    destruct (includes _ t); [apply reads_ret|].
    destruct value; try apply reads_stuck.
    apply reads_bind; [apply reads_Object_keys|]. intros keys.
    destruct (_ && _); [apply reads_matchableUnion|apply reads_ret].
  - revert s. change (reads (matchableObj_as l key)).
    unfold matchableObj_as, matchableDisc.
    apply reads_bind; [apply reads_get|]. intros tag. apply reads_ret.
Qed.

(** ** Handlers selected by key *)

(** X9: a handler is selected by the key a value stands for, so two
    values with the same key (the number 1 and the string "1", true and
    the string "true") select the same handler: the enum matcher calls one
    and the same function, each time with its own value, and the
    discriminated matcher does the same thing for either tag. *)
Theorem same_key_same_handler
    (body : fid -> val -> list object -> outcome val * list object)
    (Object_prototype : gmap string val)
    (v1 v2 : val) (k : string) (h : loc) (oh : object) (s : state) :
  heap s !! h = Some oh ->
  String_ (_disc_key v1) = Some k -> String_ (_disc_key v2) = Some k ->
  (exists fn,
     matchableEnum_match body v1 h s = call body fn v1 s /\
     matchableEnum_match body v2 h s = call body fn v2 s) /\
  (is_nullish v1 = false -> is_nullish v2 = false ->
   forall key value,
     matchableDisc_match body Object_prototype key value v1 h s =
     matchableDisc_match body Object_prototype key value v2 h s).
Proof.
  intros Hh Hk1 Hk2. split.
  - eexists. split.
    + apply (matchableEnum_match_run body v1 k h oh s Hh Hk1).
    + apply (matchableEnum_match_run body v2 k h oh s Hh Hk2).
  - intros Hn1 Hn2 key value. unfold matchableDisc_match.
    rewrite Hn1, Hn2, !is_nullish__disc_key, Hn1, Hn2.
    unfold ToPropertyKey.
    rewrite !(ToString_primitive_ret body (_disc_key v1) k Hk1).
    by rewrite !(ToString_primitive_ret body (_disc_key v2) k Hk2).
Qed.

Lemma same_key_same_handler_witness :
  let s := State numbers_heap [] in
  matchableEnum_match numbers_body (VNum (Number "2")) 3 s =
    (Ret (VStr "two"), State numbers_heap [(1, VNum (Number "2"))]) /\
  matchableEnum_match numbers_body (VStr "2") 3 s =
    (Ret (VStr "two"), State numbers_heap [(1, VStr "2")]) /\
  exists fn,
    matchableEnum_match numbers_body (VNum (Number "2")) 3 s =
      call numbers_body fn (VNum (Number "2")) s /\
    matchableEnum_match numbers_body (VStr "2") 3 s =
      call numbers_body fn (VStr "2") s.
Proof.
  intros s. split; [vm_compute; reflexivity|].
  split; [vm_compute; reflexivity|].
  apply (same_key_same_handler numbers_body ∅ (VNum (Number "2")) (VStr "2") "2" 3
           (record {[ "1" := VObj 0; "2" := VObj 1; "_" := VObj 2 ]}) s);
    vm_compute; reflexivity.
Defined.

(** ** What the matchers never write to *)

Lemma keeps_alloc_bind {B} (l : loc) (o obj : object) (k : loc -> M B) :
  (forall p, p <> l -> keeps l o (k p)) -> keeps l o (bind (alloc obj) k).
Proof.
  intros Hk s H. unfold bind, alloc.
  pose proof (lookup_lt_Some _ _ _ H) as Hlt.
  apply Hk; [lia|]. by apply lookup_app_l_Some.
Qed.

Lemma keeps_isEqual (l : loc) (o : object) (a b : val) :
  keeps l o (isEqual a b).
Proof. intros s H. unfold isEqual. by destruct (equal _ _ a b). Qed.

Lemma keeps_set_prop (l : loc) (o : object) (l' : loc) (k : string) (v : val) :
  l' <> l -> keeps l o (set_prop l' k v).
Proof.
  intros Hne s H. unfold set_prop.
  destruct (heap s !! l') as [[[| |] ow pr]|]; try done;
    (destruct (_ && _ && _);
     [destruct v as [| |b|n|x|l'']; try done;
      [simpl; by rewrite list_lookup_insert_ne
      |destruct (l'' =? l'); [done|];
       destruct (heap s !! l''); [|done];
       simpl; by rewrite list_lookup_insert_ne]
     |simpl; by rewrite list_lookup_insert_ne]).
Qed.

Lemma keeps_some_nullish (l : loc) (o : object) (value : loc)
    (keys : list string) :
  keeps l o (some_nullish value keys).
Proof.
  induction keys as [|k keys IH]; simpl; [apply keeps_ret|].
  apply keeps_bind; [apply keeps_get|]. intros v.
  destruct (is_nullish v); [apply keeps_ret|apply IH].
Qed.

Lemma keeps_pick_each (l : loc) (o : object) (value picked : loc)
    (keys : list string) :
  picked <> l -> keeps l o (pick_each value picked keys).
Proof.
  intros Hne. induction keys as [|k keys IH]; simpl; [apply keeps_ret|].
  apply keeps_bind; [apply keeps_get|]. intros v.
  apply keeps_bind; [by apply keeps_set_prop|]. intros _. apply IH.
Qed.

Lemma keeps__disc_payload_any (Object_prototype : gmap string val)
    (l : loc) (o : object) (obj : loc) (key : string) :
  keeps l o (_disc_payload Object_prototype obj key).
Proof.
  intros s H. destruct (heap s !! obj) as [ob|] eqn:Hob.
  - rewrite (_disc_payload_fresh Object_prototype obj key ob s Hob).
    by apply lookup_app_l_Some.
  - unfold _disc_payload, spread, bind, deref. by rewrite Hob.
Qed.

Section Writes.

Variable body : fid -> val -> list object -> outcome val * list object.
Variable Object_prototype : gmap string val.
Variable Array_prototype : gmap string val.
Variable l : loc.
Variable o : object.
Hypothesis body_leaves : leave body l o.

#[local] Hint Resolve keeps_isEqual keeps_some_nullish
  keeps__disc_payload_any : keeps.

#[local] Hint Extern 1 (keeps _ _ (call _ _ _)) =>
  apply keeps_call; assumption : keeps.

#[local] Hint Extern 1 (keeps _ _ (ToString _ _)) =>
  apply keeps_ToString; assumption : keeps.

#[local] Hint Extern 1 (keeps _ _ (ToPropertyKey _ _)) =>
  apply keeps_ToString; assumption : keeps.

Lemma keeps_operation (m : M val) :
  operation body Object_prototype Array_prototype m -> keeps l o m.
Proof.
  intros Hm. destruct Hm.
  - unfold matchableEnum_value_or_else. keeps_steps.
  - unfold matchableEnum_match, ToPropertyKey. keeps_steps.
  - unfold matchableEnum_into. keeps_steps.
  - unfold matchableEnum_catch. keeps_steps.
  - unfold matchableUnion_match, ToPropertyKey. keeps_steps.
  - unfold matchableUnion_into. destruct (negb _); [|keeps_steps].
    apply keeps_alloc_bind. intros e He. keeps_steps.
  - unfold matchableUnion_catch. destruct (_ && _); [|keeps_steps].
    apply keeps_alloc_bind. intros e He. keeps_steps.
  - unfold matchableDisc_match, ToPropertyKey. keeps_steps.
  - unfold matchableDisc_into. keeps_steps.
  - unfold matchableDisc_catch. keeps_steps.
  - unfold matchableObj_into. keeps_steps.
  - unfold matchableObj_catch.
    apply keeps_bind; [keeps_steps|]. intros absent.
    destruct absent; [keeps_steps|].
    apply keeps_alloc_bind. intros picked Hp.
    apply keeps_bind; [by apply keeps_pick_each|]. intros _. keeps_steps.
  - unfold matchableObj_match. keeps_steps.
Qed.

End Writes.

(** X7: the matchers write to nothing that was there before the call.
    Whatever method of an enum, union, discriminated or object matcher is
    called, with whatever arguments, an object of the heap that the handlers
    themselves leave alone is after the call the object it was before;
    what the methods build (bare payloads, picked sub-records, the empty
    array) is new. *)
Theorem operations_write_nothing
    (body : fid -> val -> list object -> outcome val * list object)
    (Object_prototype Array_prototype : gmap string val)
    (m : M val) (l : loc) (o : object) (s : state) :
  operation body Object_prototype Array_prototype m ->
  leave body l o ->
  heap s !! l = Some o ->
  heap (snd (m s)) !! l = Some o.
Proof.
  intros Hm Hbody. by apply (keeps_operation body Object_prototype
                               Array_prototype l o Hbody m Hm).
Qed.

Lemma operations_write_nothing_witness :
  heap (snd (matchableObj_catch echo_body ∅ 1 ["a"; "b"] (VObj 0)
               (State abc_heap []))) !! 1 =
    Some (record {[ "a" := VNum (Number "1"); "b" := VNum (Number "2"); "c" := VNum (Number "3") ]}).
Proof.
  apply (operations_write_nothing echo_body ∅ ∅ _ 1
           (record {[ "a" := VNum (Number "1"); "b" := VNum (Number "2"); "c" := VNum (Number "3") ]})
           (State abc_heap [])).
  - apply op_obj_catch.
  - apply echo_body_leaves.
  - reflexivity.
Defined.

(** ** How many handlers a call runs *)

Lemma quiet_alloc (obj : object) : quiet (alloc obj).
Proof. by intros s. Qed.

Lemma quiet_isEqual (a b : val) : quiet (isEqual a b).
Proof. intros s. unfold isEqual. by destruct (equal _ _ a b). Qed.

Lemma quiet_set_prop (l : loc) (k : string) (v : val) : quiet (set_prop l k v).
Proof.
  intros s. unfold set_prop.
  destruct (heap s !! l) as [[[| |] ow pr]|]; try done;
    (destruct (_ && _ && _); [|done];
     destruct v as [| |b|n|x|l']; try done;
     destruct (l' =? l); [done|]; by destruct (heap s !! l')).
Qed.

Lemma quiet_delete_prop (l : loc) (k : string) : quiet (delete_prop l k).
Proof.
  intros s. unfold delete_prop.
  by destruct (heap s !! l) as [[[| |] ow pr]|].
Qed.

Lemma quiet_some_nullish (value : loc) (keys : list string) :
  quiet (some_nullish value keys).
Proof.
  induction keys as [|k keys IH]; simpl; [apply quiet_ret|].
  apply quiet_bind; [apply quiet_get|]. intros v.
  destruct (is_nullish v); [apply quiet_ret|apply IH].
Qed.

Lemma quiet_pick_each (value picked : loc) (keys : list string) :
  quiet (pick_each value picked keys).
Proof.
  induction keys as [|k keys IH]; simpl; [apply quiet_ret|].
  apply quiet_bind; [apply quiet_get|]. intros v.
  apply quiet_bind; [apply quiet_set_prop|]. intros _. apply IH.
Qed.

Lemma quiet__disc_payload (Object_prototype : gmap string val) (obj : loc)
    (key : string) :
  quiet (_disc_payload Object_prototype obj key).
Proof.
  unfold _disc_payload, spread.
  apply quiet_bind.
  { apply quiet_bind; [apply quiet_reads, reads_deref|].
    intros ob. apply quiet_alloc. }
  intros out. apply quiet_bind; [apply quiet_delete_prop|].
  intros _. apply quiet_ret.
Qed.

Lemma once_quiet {A} (m : M A) : quiet m -> at_most_once m.
Proof.
  intros H s. exists []. rewrite H, app_nil_r. split; [done|simpl; lia].
Qed.

Lemma once_bind {A B} (m : M A) (k : A -> M B) :
  quiet m -> (forall a, at_most_once (k a)) -> at_most_once (bind m k).
Proof.
  intros Hm Hk s. unfold bind. specialize (Hm s).
  destruct (m s) as [[a|e|] s']; simpl in *.
  - destruct (Hk a s') as (made & Hmade & Hlen).
    exists made. by rewrite Hmade, Hm.
  - exists []. rewrite Hm, app_nil_r. split; [done|simpl; lia].
  - exists []. rewrite Hm, app_nil_r. split; [done|simpl; lia].
Qed.

Lemma once_call
    (body : fid -> val -> list object -> outcome val * list object)
    (fn arg : val) :
  at_most_once (call body fn arg).
Proof.
  destruct fn as [| |b|n|x|l]; try (apply once_quiet, quiet_throw).
  apply once_bind; [apply quiet_reads, reads_deref|].
  intros [[| |f] ow pr]; try (apply once_quiet, quiet_throw).
  intros s. exists [(f, arg)]. cbn [class].
  destruct (invoke_logged body f arg s) as (_ & _ & Hc).
  split; [exact Hc|simpl; lia].
Qed.

Create HintDb once.
#[local] Hint Resolve quiet_ret quiet_throw quiet_get quiet_has quiet_ToString
  quiet_alloc quiet_isEqual quiet_some_nullish quiet_pick_each
  quiet__disc_payload once_call : once.

(** Takes the reads off the front of a computation, up to its one call. *)
Ltac once_steps :=
  repeat first
    [ solve [auto with once]
    | solve [apply once_quiet; auto with once]
    | apply once_bind; [|intros ?]
    | apply quiet_bind; [|intros ?]
    | match goal with
      | |- at_most_once (if ?b then _ else _) => destruct b
      | |- quiet (if ?b then _ else _) => destruct b
      end ].

(** X8: one call of a method of an enum, union, discriminated or object
    matcher runs one handler at most, once: the log of the handler calls
    grows by no entry or by one, whatever the arguments and the state.
    (The conversion methods of a reference used as a key are the caller's
    code too, and [match] runs them for each conversion it makes; they are
    no handlers and are not in the log.) *)
Theorem operations_call_at_most_once
    (body : fid -> val -> list object -> outcome val * list object)
    (Object_prototype Array_prototype : gmap string val)
    (m : M val) (s : state) :
  operation body Object_prototype Array_prototype m ->
  exists made,
    calls (snd (m s)) = calls s ++ made /\ length made <= 1.
Proof.
  intros Hm. revert s. change (at_most_once m). destruct Hm.
  - unfold matchableEnum_value_or_else. once_steps.
  - unfold matchableEnum_match, ToPropertyKey. once_steps.
  - unfold matchableEnum_into. once_steps.
  - unfold matchableEnum_catch. once_steps.
  - unfold matchableUnion_match, ToPropertyKey. once_steps.
  - unfold matchableUnion_into. once_steps.
  - unfold matchableUnion_catch. once_steps.
  - unfold matchableDisc_match, ToPropertyKey. once_steps.
  - unfold matchableDisc_into. once_steps.
  - unfold matchableDisc_catch. once_steps.
  - unfold matchableObj_into. once_steps.
  - unfold matchableObj_catch. once_steps.
  - unfold matchableObj_match. once_steps.
Qed.

(** The test's record against [{a: f0, _: f1}], and the record whose tag
    is an object with a [toString] against the same map: the conversion is
    run twice, the handler once. *)
Lemma operations_call_at_most_once_witness :
  (exists made,
    calls (snd (matchableDisc_match echo_body ∅ "kind" 2 (VStr "a") 3
                  (State kinded_heap []))) = [] ++ made /\
    length made <= 1) /\
  (exists made,
    calls (snd (matchableDisc_match tag_body ∅ "kind" 4 (VObj 3) 5
                  (State reference_tag_heap []))) = [] ++ made /\
    length made <= 1) /\
  calls (snd (matchableDisc_match tag_body ∅ "kind" 4 (VObj 3) 5
                (State reference_tag_heap []))) = [(0, VObj 8)].
Proof.
  split_and!.
  - apply (operations_call_at_most_once echo_body ∅ ∅ _ (State kinded_heap [])).
    apply op_disc_match.
  - apply (operations_call_at_most_once tag_body ∅ ∅ _
             (State reference_tag_heap [])).
    apply op_disc_match.
  - vm_compute. reflexivity.
Defined.

(** ** More on [catch(...keys)] of the object matcher *)

(** X11: a key counts as present when the record finds a value under it,
    its own or not: for a key other than [__proto__] that is no field of
    the record itself but that it inherits with a value other than null and
    undefined, [catch(key)] calls the handler, and the sub-record holds the
    inherited value as a field of its own. *)
Theorem matchableObj_catch_inherited
    (body : fid -> val -> list object -> outcome val * list object)
    (Object_prototype : gmap string val)
    (value : loc) (k : string) (v fn : val) (o : object) (s : state) :
  heap s !! value = Some o ->
  class o = Plain ->
  own o !! k = None -> proto o !! k = Some v ->
  is_nullish v = false ->
  k <> "__proto__" ->
  matchableObj_catch body Object_prototype value [k] fn s =
    call body fn (VObj (length (heap s)))
      (with_object s (Object Plain {[k := v]} Object_prototype)).
Proof.
  intros Hv Hc Hown Hproto Hn Hk.
  assert (lookup_prop o k = v) as Hlk.
  { unfold lookup_prop. by rewrite Hown, Hc, Hproto. }
  rewrite (matchableObj_catch_run _ _ _ _ _ o s Hv)
    by (intros H; apply list_elem_of_singleton in H; congruence).
  simpl. rewrite Hlk, Hn. simpl. by rewrite insert_empty.
Qed.

Lemma matchableObj_catch_inherited_witness :
  let s := State inheriting_heap [] in
  matchableObj_catch echo_body ∅ 2 ["toString"] (VObj 0) s =
    (Ret (VObj 3),
     State (inheriting_heap ++ [record {[ "toString" := VObj 1 ]}])
       [(0, VObj 3)]).
Proof.
  intros s.
  etransitivity.
  - apply (matchableObj_catch_inherited echo_body ∅ 2 "toString" (VObj 1)
             (VObj 0)
             (Object Plain {[ "a" := VNum (Number "1") ]} {[ "toString" := VObj 1 ]}) s);
      try reflexivity.
    discriminate.
  - vm_compute. reflexivity.
Defined.

(** X12: naming all the fields of a record that has no field called
    [__proto__] gives a copy of it: when the keys are exactly the record's
    own fields and none of them holds null or undefined, the handler of
    [catch(...keys)] is called with a new record that has the same own
    fields with the same values. *)
Theorem matchableObj_catch_all_fields
    (body : fid -> val -> list object -> outcome val * list object)
    (Object_prototype : gmap string val)
    (value : loc) (keys : list string) (fn : val) (o : object) (s : state) :
  heap s !! value = Some o ->
  "__proto__" ∉ keys ->
  (forall k, k ∈ keys <-> is_Some (own o !! k)) ->
  (forall k v, own o !! k = Some v -> is_nullish v = false) ->
  matchableObj_catch body Object_prototype value keys fn s =
    call body fn (VObj (length (heap s)))
      (with_object s (Object Plain (own o) Object_prototype)).
Proof.
  intros Hv Hk Hall Hpresent.
  rewrite (matchableObj_catch_run _ _ _ _ _ o s Hv Hk).
  rewrite existsb_nullish_false.
  - do 3 f_equal. apply map_eq. intros k.
    destruct (decide (k ∈ keys)) as [Hin|Hout].
    + rewrite (picked_fields_lookup o keys ∅ k Hin).
      destruct (proj1 (Hall k) Hin) as [v Hv'].
      by rewrite Hv', (lookup_prop_own o k v Hv').
    + rewrite (picked_fields_lookup_other o keys ∅ k Hout), lookup_empty.
      destruct (own o !! k) as [v|] eqn:E; [|done].
      exfalso. apply Hout, Hall. eauto.
  - intros k Hin. destruct (proj1 (Hall k) Hin) as [v Hv'].
    rewrite (lookup_prop_own o k v Hv'). by apply (Hpresent k).
Qed.

Lemma matchableObj_catch_all_fields_witness :
  let s := State abc_heap [] in
  matchableObj_catch echo_body ∅ 1 ["a"; "b"; "c"] (VObj 0) s =
    (Ret (VObj 3),
     State (abc_heap ++
              [record {[ "a" := VNum (Number "1"); "b" := VNum (Number "2"); "c" := VNum (Number "3") ]}])
       [(0, VObj 3)]).
Proof.
  intros s.
  etransitivity.
  - apply (matchableObj_catch_all_fields echo_body ∅ 1 ["a"; "b"; "c"] (VObj 0)
             (record {[ "a" := VNum (Number "1"); "b" := VNum (Number "2"); "c" := VNum (Number "3") ]}) s).
    + reflexivity.
    + intros H. repeat (apply elem_of_cons in H as [H|H]; [discriminate H|]).
      by apply elem_of_nil in H.
    + intros k. cbn [own record]. split.
      * intros H.
        repeat (apply elem_of_cons in H as [->|H]; [vm_compute; eauto|]).
        by apply elem_of_nil in H.
      * intros [v Hv]. rewrite !elem_of_cons.
        destruct (decide (k = "a")) as [->|Ha]; [by left|].
        destruct (decide (k = "b")) as [->|Hb]; [by right; left|].
        destruct (decide (k = "c")) as [->|Hc]; [by right; right; left|].
        by rewrite !lookup_insert_ne, lookup_singleton_ne in Hv.
    + intros k v Hv. cbn [own record] in Hv.
      destruct (decide (k = "a")) as [->|Ha];
        [rewrite lookup_insert_eq in Hv; by injection Hv as <-|].
      rewrite lookup_insert_ne in Hv by done.
      destruct (decide (k = "b")) as [->|Hb];
        [rewrite lookup_insert_eq in Hv; by injection Hv as <-|].
      rewrite lookup_insert_ne in Hv by done.
      destruct (decide (k = "c")) as [->|Hc];
        [rewrite lookup_singleton_eq in Hv; by injection Hv as <-|].
      by rewrite lookup_singleton_ne in Hv.
  - vm_compute. reflexivity.
Defined.

(** ** The bare payload and the record it comes from *)

(** X13: the bare payload is a plain record of its own (also when the
    wrapped object is an array or a function), without the discriminant and
    with every other own field of the wrapped record unchanged; putting the
    discriminant back gives the fields of the wrapped record, and when the
    discriminant is no field of the record the payload has exactly the
    record's fields. *)
Theorem _disc_payload_fields
    (Object_prototype : gmap string val)
    (value : loc) (key : string) (o : object) (s : state) :
  heap s !! value = Some o ->
  exists out p,
    _disc_payload Object_prototype value key s =
      (Ret (VObj out), with_object s p) /\
    heap s !! out = None /\
    heap (with_object s p) !! out = Some p /\
    class p = Plain /\ proto p = Object_prototype /\
    own p !! key = None /\
    (forall k, k <> key -> own p !! k = own o !! k) /\
    (forall tag, own o !! key = Some tag -> <[key := tag]> (own p) = own o) /\
    (own o !! key = None -> own p = own o).
Proof.
  intros Hv.
  exists (length (heap s)), (bare_payload Object_prototype o key).
  split_and!; try done.
  - by apply _disc_payload_fresh.
  - by apply lookup_ge_None_2.
  - by apply list_lookup_middle.
  - apply lookup_delete_eq.
  - intros k Hk. by apply lookup_delete_ne.
  - intros tag Htag. cbn [own bare_payload].
    by rewrite insert_delete_eq, insert_id.
  - intros Hnone. by apply delete_id.
Qed.

Lemma _disc_payload_fields_witness :
  exists out p,
    _disc_payload ∅ 2 "kind" (State kinded_heap []) =
      (Ret (VObj out), with_object (State kinded_heap []) p) /\
    own p = {[ "x" := VNum (Number "1"); "y" := VNum (Number "2") ]} /\
    <[ "kind" := VStr "a" ]> (own p) =
      {[ "kind" := VStr "a"; "x" := VNum (Number "1"); "y" := VNum (Number "2") ]}.
Proof.
  destruct (_disc_payload_fields ∅ 2 "kind"
              (record {[ "kind" := VStr "a"; "x" := VNum (Number "1"); "y" := VNum (Number "2") ]})
              (State kinded_heap []) eq_refl)
    as (out & p & Hrun & _ & _ & _ & _ & _ & _ & Hback & _).
  exists 6, (record {[ "x" := VNum (Number "1"); "y" := VNum (Number "2") ]}).
  split_and!; vm_compute; reflexivity.
Defined.

(** ** Keys a handler map inherits *)

(** X14: a handler map is searched with [in], which also finds what the
    map inherits: when the key of a primitive value is no property of the map
    itself but is inherited by it (as [toString] is by every object
    literal), [match] on the enum matcher calls the inherited value with
    the value, and the handler under [_] is not run. *)
Theorem matchableEnum_match_inherited_key
    (body : fid -> val -> list object -> outcome val * list object)
    (value : val) (k : string) (g : val) (h : loc) (oh : object) (s : state) :
  heap s !! h = Some oh ->
  class oh = Plain ->
  String_ (_disc_key value) = Some k ->
  own oh !! k = None -> proto oh !! k = Some g ->
  matchableEnum_match body value h s = call body g value s.
Proof.
  intros Hh Hc Hk Hown Hproto.
  rewrite (matchableEnum_match_run body value k h oh s Hh Hk).
  unfold has_property, lookup_prop. rewrite Hown, Hc, Hproto.
  by rewrite bool_decide_eq_true_2 by eauto.
Qed.

Lemma matchableEnum_match_inherited_key_witness :
  let s := State inheriting_handlers_heap [] in
  matchableEnum_match echo_body (VStr "toString") 2 s =
    (Ret (VStr "toString"),
     State inheriting_handlers_heap [(1, VStr "toString")]).
Proof.
  intros s.
  etransitivity.
  - apply (matchableEnum_match_inherited_key echo_body (VStr "toString")
             "toString" (VObj 1) 2
             (Object Plain {[ "_" := VObj 0 ]} {[ "toString" := VObj 1 ]}) s);
      reflexivity.
  - vm_compute. reflexivity.
Defined.
